(** * ScaleKernel: a covariance function decorated with a learned output scale

    Shallow embedding of [gpytorch/kernels/scale_kernel.py].

    The file is organised like the Python module and what it imports:
    - [Torch]: the part of the tensor runtime the kernel calls
      (shapes, row-major data, [unsqueeze], [repeat], [view], broadcasting
      multiplication);
    - [Lazy]: lazily represented covariance results and [delazify];
    - [Constraints]: the constraint interface ([transform],
      [inverse_transform]);
    - [ScaleKernel]: the class itself, method by method, over a small
      state-and-exception monad;
    - the theorems. *)

From Stdlib Require Import List Arith ZArith Lia Bool Reals Lra.
Import ListNotations.

Set Implicit Arguments.

(** ** Scalars

    The entries of a tensor.  The kernel only multiplies them, creates
    zeros and (through its constraint) compares them with zero, so every
    definition below is written once for any scalar type with these
    operations; it is run on [Z] and on the real numbers further down. *)

Class Scalar (A : Type) := {
  szero : A;
  smul : A -> A -> A;
  slt : A -> A -> Prop;
  smul_comm : forall a b : A, smul a b = smul b a
}.

(** ** Exceptions and results *)

Inductive Error : Type :=
| InvalidScaleError            (* a value outside the constraint's domain *)
| ShapeMismatchError           (* shapes that do not broadcast, bad view or repeat *)
| IndexError                   (* a dimension that the tensor does not have *)
| KernelError (code : nat).    (* anything the base kernel raises *)

Inductive Result (X : Type) : Type :=
| Ok (x : X)
| Raise (e : Error).

Arguments Ok {X} x.
Arguments Raise {X} e.

Definition rbind {X Y : Type} (r : Result X) (f : X -> Result Y) : Result Y :=
  match r with
  | Ok x => f x
  | Raise e => Raise e
  end.

Definition rmap {X Y : Type} (f : X -> Y) (r : Result X) : Result Y :=
  rbind r (fun x => Ok (f x)).

Fixpoint mapM {X Y : Type} (f : X -> Result Y) (l : list X) : Result (list Y) :=
  match l with
  | [] => Ok []
  | x :: l' => rbind (f x) (fun y => rbind (mapM f l') (fun ys => Ok (y :: ys)))
  end.

(** ** The tensor runtime *)

Module Torch.

Fixpoint zipWith {X Y Z : Type} (f : X -> Y -> Z) (l1 : list X) (l2 : list Y) : list Z :=
  match l1, l2 with
  | x :: l1', y :: l2' => f x y :: zipWith f l1' l2'
  | _, _ => []
  end.

(** Number of entries of a tensor of shape [s]. *)
Definition numel_of (s : list nat) : nat := fold_right Nat.mul 1 s.

(** [pad_left n s]: [s] with size-1 axes added in front until it has [n]
    axes (how broadcasting and [repeat] align a shorter shape). *)
Definition pad_left (n : nat) (s : list nat) : list nat :=
  repeat 1 (n - length s) ++ s.

(** Offset of the entry at multi-index [idx] in row-major order. *)
Fixpoint ravel (s idx : list nat) : nat :=
  match s, idx with
  | _ :: s', i :: idx' => i * numel_of s' + ravel s' idx'
  | _, _ => 0
  end.

(** [idx] is a multi-index into shape [s]. *)
Fixpoint in_bounds (s idx : list nat) : bool :=
  match s, idx with
  | [], [] => true
  | d :: s', i :: idx' => (i <? d) && in_bounds s' idx'
  | _, _ => false
  end.

(** Two axis sizes broadcast when they are equal or one of them is 1. *)
Definition broadcast_dim (d1 d2 : nat) : option nat :=
  if d1 =? d2 then Some d1
  else if d1 =? 1 then Some d2
  else if d2 =? 1 then Some d1
  else None.

Fixpoint broadcast_aligned (s1 s2 : list nat) : option (list nat) :=
  match s1, s2 with
  | [], [] => Some []
  | d1 :: s1', d2 :: s2' =>
      match broadcast_dim d1 d2, broadcast_aligned s1' s2' with
      | Some d, Some s => Some (d :: s)
      | _, _ => None
      end
  | _, _ => None
  end.

Definition broadcast_shapes (s1 s2 : list nat) : Result (list nat) :=
  let n := Nat.max (length s1) (length s2) in
  match broadcast_aligned (pad_left n s1) (pad_left n s2) with
  | Some s => Ok s
  | None => Raise ShapeMismatchError
  end.

(** An axis of size [d] can be expanded to size [e]. *)
Definition expandable_dim (d e : nat) : bool := (d =? e) || (d =? 1).

Fixpoint expandable (s target : list nat) : bool :=
  match s, target with
  | [], [] => true
  | d :: s', e :: t' => expandable_dim d e && expandable s' t'
  | _, _ => false
  end.

(** The index of the entry of a tensor of shape [s] that lands at [idx]
    after the tensor has been broadcast: leading axes that the tensor does
    not have are dropped, and its size-1 axes are read at 0. *)
Definition clip (d i : nat) : nat := if d =? 1 then 0 else i.

Definition broadcast_index (s idx : list nat) : list nat :=
  zipWith clip s (skipn (length idx - length s) idx).

Section Tensors.
Context {A : Type}.

Record Tensor : Type := mkTensor { shape : list nat; data : list A }.

Definition dim (t : Tensor) : nat := length (shape t).
Definition numel (t : Tensor) : nat := numel_of (shape t).

(** The data of a tensor has one entry per index. *)
Definition well_shaped (t : Tensor) : Prop := length (data t) = numel_of (shape t).

Definition get (t : Tensor) (idx : list nat) : option A :=
  if in_bounds (shape t) idx then nth_error (data t) (ravel (shape t) idx) else None.

(** [torch.tensor(a)] for a Python number: a 0-dimensional tensor. *)
Definition tensor (a : A) : Tensor := mkTensor [] [a].

(** [t.size(i)], with Python's negative indices. *)
Definition size_at (t : Tensor) (i : Z) : Result nat :=
  let n := Z.of_nat (dim t) in
  let j := if (i <? 0)%Z then (i + n)%Z else i in
  if ((0 <=? j) && (j <? n))%Z
  then match nth_error (shape t) (Z.to_nat j) with
       | Some d => Ok d
       | None => Raise IndexError
       end
  else Raise IndexError.

(** [t.unsqueeze(i)] for [0 <= i <= t.dim()]. *)
Definition unsqueeze (t : Tensor) (i : nat) : Tensor :=
  mkTensor (firstn i (shape t) ++ 1 :: skipn i (shape t)) (data t).

(** [t.view] on the sizes [s]: the same data under another shape with as many entries. *)
Definition view (t : Tensor) (s : list nat) : Result Tensor :=
  if numel_of s =? numel t then Ok (mkTensor s (data t)) else Raise ShapeMismatchError.

(** [chunks n size l]: the first [n] consecutive blocks of [size] entries. *)
Fixpoint chunks (n size : nat) (l : list A) : list (list A) :=
  match n with
  | 0 => []
  | S n' => firstn size l :: chunks n' size (skipn size l)
  end.

(** Row-major data of shape [s], tiled [reps] times axis by axis. *)
Fixpoint tile_data (s reps : list nat) (l : list A) : list A :=
  match s, reps with
  | d :: s', r :: reps' =>
      concat (repeat (concat (map (tile_data s' reps') (chunks d (numel_of s') l))) r)
  | _, _ => l
  end.

(** [t.repeat] on the list [sizes]. *)
Definition repeat_ (t : Tensor) (sizes : list nat) : Result Tensor :=
  if length sizes <? dim t then Raise ShapeMismatchError
  else
    let s := pad_left (length sizes) (shape t) in
    Ok (mkTensor (zipWith Nat.mul sizes s) (tile_data s sizes (data t))).

(** [t.expand] to the shape [target]: size-1 axes are replicated, new axes go in front. *)
Definition expand (t : Tensor) (target : list nat) : Result Tensor :=
  let s := pad_left (length target) (shape t) in
  if expandable s target
  then Ok (mkTensor target
             (tile_data s (zipWith (fun d e => if d =? e then 1 else e) s target) (data t)))
  else Raise ShapeMismatchError.

Definition tensor_map (f : A -> A) (t : Tensor) : Tensor :=
  mkTensor (shape t) (map f (data t)).

Context `{Scalar A}.

(** [torch.zeros] on the sizes [s]. *)
Definition zeros (s : list nat) : Tensor := mkTensor s (repeat szero (numel_of s)).

(** [t1 * t2] (also [t1.mul(t2)]): elementwise product after broadcasting. *)
Definition tensor_mul (t1 t2 : Tensor) : Result Tensor :=
  rbind (broadcast_shapes (shape t1) (shape t2)) (fun s =>
  rbind (expand t1 s) (fun e1 =>
  rbind (expand t2 s) (fun e2 =>
  Ok (mkTensor s (zipWith smul (data e1) (data e2)))))).

End Tensors.

Arguments Tensor A : clear implicits.

End Torch.
Import Torch.

#[export] Instance Scalar_Z : Scalar Z :=
  {| szero := 0%Z; smul := Z.mul; slt := Z.lt; smul_comm := Z.mul_comm |}.

(** ** Lazily represented covariance results

    The kernel imports [delazify] from the package [gpytorch.lazy] and
    calls [mul] on what the base kernel returns. *)

Module LazyTensors.
Section LazyTensors.
Context {A : Type} `{Scalar A}.

(** Modelled from the spec: the class [LazyTensor] of [gpytorch.lazy] is
    not among the sources.  The spec describes a lazy result as "a
    covariance matrix kept as an unevaluated structured/deferred
    operation": a dense tensor behind a lazy interface, or a product with
    a tensor that has not been carried out. *)
Inductive LazyTensor : Type :=
| NonLazyTensor (t : Tensor A)
| ConstantMulLazyTensor (base : LazyTensor) (constant : Tensor A).

(** The shape of what a lazy result evaluates to, when its deferred
    products broadcast. *)
Fixpoint lazy_shape (l : LazyTensor) : Result (list nat) :=
  match l with
  | NonLazyTensor t => Ok (shape t)
  | ConstantMulLazyTensor base constant =>
      rbind (lazy_shape base) (fun s => broadcast_shapes s (shape constant))
  end.

(** The number of axes of what a lazy result evaluates to. *)
Fixpoint lazy_dim (l : LazyTensor) : nat :=
  match l with
  | NonLazyTensor t => dim t
  | ConstantMulLazyTensor base constant => Nat.max (lazy_dim base) (dim constant)
  end.

(** Modelled from the spec: materializing a lazy representation ("force
    [rawResult] into a concrete dense representation") carries out the
    deferred products. *)
Fixpoint evaluate (l : LazyTensor) : Result (Tensor A) :=
  match l with
  | NonLazyTensor t => Ok t
  | ConstantMulLazyTensor base constant =>
      rbind (evaluate base) (fun t => tensor_mul t constant)
  end.

(** Modelled from the spec: [LazyTensor.mul] is not among the sources.
    The product is "the base representation's native scalar-multiply
    operation, preserving whatever lazy/deferred representation
    [rawResult] had (never force materialization)", and the step raises
    [ShapeMismatchError] "if [scale]'s batch shape is not
    broadcast-compatible with [rawResult]": the product stays deferred and
    the shapes are checked now. *)
Definition lazy_mul (l : LazyTensor) (other : Tensor A) : Result LazyTensor :=
  rbind (lazy_shape (ConstantMulLazyTensor l other))
        (fun _ => Ok (ConstantMulLazyTensor l other)).

(** What a kernel's [forward] returns: a dense tensor or a lazy one. *)
Inductive CovarianceResult : Type :=
| DenseResult (t : Tensor A)
| LazyResult (l : LazyTensor).

Definition is_lazy (r : CovarianceResult) : bool :=
  match r with
  | DenseResult _ => false
  | LazyResult _ => true
  end.

(** [r.dim()]. *)
Definition cov_dim (r : CovarianceResult) : nat :=
  match r with
  | DenseResult t => dim t
  | LazyResult l => lazy_dim l
  end.

(** [r.shape]. *)
Definition cov_shape (r : CovarianceResult) : Result (list nat) :=
  match r with
  | DenseResult t => Ok (shape t)
  | LazyResult l => lazy_shape l
  end.

(** Modelled from the spec: [delazify] of [gpytorch.lazy] is not among the
    sources; it forces a result "into a concrete dense representation
    (materializing any lazy representation)" and leaves a dense one as it
    is. *)
Definition delazify (r : CovarianceResult) : Result (Tensor A) :=
  match r with
  | DenseResult t => Ok t
  | LazyResult l => evaluate l
  end.

(** [r.mul(other)], dispatched on the representation of [r]. *)
Definition cov_mul (r : CovarianceResult) (other : Tensor A) : Result CovarianceResult :=
  match r with
  | DenseResult t => rmap DenseResult (tensor_mul t other)
  | LazyResult l => rmap LazyResult (lazy_mul l other)
  end.

End LazyTensors.

Arguments LazyTensor A : clear implicits.
Arguments CovarianceResult A : clear implicits.

End LazyTensors.
Import LazyTensors.

(** ** Constraints

    The kernel imports [Positive] from the package [gpytorch.constraints]
    and calls [transform] and [inverse_transform] on its constraint. *)

Module Constraints.
Section Constraints.
Context {A : Type} `{Scalar A}.

(** Modelled from the spec: the constraint classes of
    [gpytorch.constraints] are not among the sources.  The spec gives the
    interface: [transform(raw)] and [inverseTransform(constrained)], both
    elementwise, the second one failing outside its domain. *)
Record Constraint : Type := mkConstraint {
  transform_entry : A -> A;
  inverse_transform_entry : A -> Result A
}.

Definition transform (c : Constraint) (t : Tensor A) : Tensor A :=
  tensor_map (transform_entry c) t.

Definition inverse_transform (c : Constraint) (t : Tensor A) : Result (Tensor A) :=
  rmap (mkTensor (shape t)) (mapM (inverse_transform_entry c) (data t)).

(** Modelled from the spec: the contract of a positivity constraint
    (section 4.1 and the error [InvalidScaleError] of section 7).
    [transform] has "strictly positive output, defined for all finite real
    inputs"; [inverseTransform] is "defined for [constrained > lowerBound]"
    with [lowerBound = 0], where it is the "elementwise inverse of
    [transform]", and it fails with [InvalidScaleError] on every other
    value. *)
Record positivity_contract (c : Constraint) : Prop := {
  transform_positive : forall x, slt szero (transform_entry c x);
  inverse_defined : forall v, slt szero v ->
    exists x, inverse_transform_entry c v = Ok x /\ transform_entry c x = v;
  inverse_rejects : forall v, ~ slt szero v ->
    inverse_transform_entry c v = Raise InvalidScaleError
}.

End Constraints.

Arguments Constraint A : clear implicits.

End Constraints.
Import Constraints.

(** ** State and exceptions

    A method of an object with state [S]: it returns a value or raises, and
    leaves a state behind in both cases. *)

Definition M (S X : Type) : Type := S -> Result X * S.

Definition ret {S X : Type} (x : X) : M S X := fun s => (Ok x, s).

Definition bind {S X Y : Type} (m : M S X) (f : X -> M S Y) : M S Y :=
  fun s =>
    match m s with
    | (Ok x, s') => f x s'
    | (Raise e, s') => (Raise e, s')
    end.

Definition lift {S X : Type} (r : Result X) : M S X := fun s => (r, s).

Definition gets {S X : Type} (f : S -> X) : M S X := fun s => (Ok (f s), s).

Notation "x <- c1 ;; c2" := (bind c1 (fun x => c2))
  (at level 61, c1 at next level, right associativity).

(** ** The kernel interface

    What [ScaleKernel] needs from the kernel it decorates, and what it
    offers itself: [forward] and [size].  A kernel is an object, so both
    run on its state. *)

Class Kernel (A Params K : Type) := {
  kernel_forward :
    Tensor A -> Tensor A -> option (Z * Z) -> bool -> Params -> M K (CovarianceResult A);
  kernel_size : Tensor A -> Tensor A -> M K (list nat)
}.

(** ** [class ScaleKernel(Kernel)] *)

Module ScaleKernel.
Section ScaleKernel.
Context {A : Type} `{Scalar A}.
Context {Params Prior K : Type} `{Kernel A Params K}.

(** The default constraint, [Positive()]; its class is not among the
    sources, so the constructor takes it as a parameter. *)
Variable Positive : Constraint A.

(** The attributes of the object.  [register_parameter],
    [register_constraint] and [register_prior] of the base class store the
    parameter under [raw_outputscale], the constraint under
    [raw_outputscale_constraint] and the prior under [outputscale_prior];
    [batch_shape] is set by [Kernel.__init__] from the keyword of that
    name. *)
Record t : Type := mkScaleKernel {
  base_kernel : K;
  batch_shape : list nat;
  raw_outputscale : Tensor A;
  raw_outputscale_constraint : Constraint A;
  outputscale_prior : option Prior
}.

Definition with_base_kernel (k : t) (b : K) : t :=
  mkScaleKernel b (batch_shape k) (raw_outputscale k)
                (raw_outputscale_constraint k) (outputscale_prior k).

Definition with_raw_outputscale (k : t) (raw : Tensor A) : t :=
  mkScaleKernel (base_kernel k) (batch_shape k) raw
                (raw_outputscale_constraint k) (outputscale_prior k).

(** A method call on [self.base_kernel]. *)
Definition on_base_kernel {X : Type} (m : M K X) : M t X :=
  fun k => let (r, b) := m (base_kernel k) in (r, with_base_kernel k b).

(** Modelled from the spec: [initialize] of the base class is not among
    the sources.  The setter "accepts either a bare numeric value or a
    tensor broadcastable to [rawScale]'s shape" and "overwrites [rawScale]
    in place": the value is broadcast to the shape of the parameter and
    copied into it. *)
Definition initialize_raw_outputscale (value : Tensor A) : M t unit :=
  fun k =>
    match expand value (shape (raw_outputscale k)) with
    | Ok v => (Ok tt, with_raw_outputscale k v)
    | Raise e => (Raise e, k)
    end.

(** [__init__(self, base_kernel, outputscale_prior=None,
    outputscale_constraint=None, **kwargs)], where [batch_shape] is the
    keyword that [Kernel.__init__] reads (default [torch.Size([])]). *)
Definition __init__ (base_kernel : K) (outputscale_prior : option Prior)
    (outputscale_constraint : option (Constraint A)) (batch_shape : list nat) : t :=
  let outputscale_constraint :=
    match outputscale_constraint with
    | None => Positive
    | Some c => c
    end in
  let outputscale :=
    if negb (length batch_shape =? 0) then zeros batch_shape else tensor szero in
  mkScaleKernel base_kernel batch_shape outputscale outputscale_constraint outputscale_prior.

(** The property [outputscale]. *)
Definition outputscale : M t (Tensor A) :=
  c <- gets raw_outputscale_constraint ;;
  raw <- gets raw_outputscale ;;
  ret (transform c raw).

(** What the setter accepts: a Python number or a tensor. *)
Inductive Value : Type :=
| Number (a : A)
| TensorValue (v : Tensor A).

(** [v.to(other)]: dtype and device of [other]; there is one of each here. *)
Definition to (v other : Tensor A) : Tensor A := v.

Definition _set_outputscale (value : Value) : M t unit :=
  raw <- gets raw_outputscale ;;
  let value :=
    match value with
    | Number a => to (tensor a) raw
    | TensorValue v => v
    end in
  c <- gets raw_outputscale_constraint ;;
  v <- lift (inverse_transform c value) ;;
  initialize_raw_outputscale v.

(** The setter of the property [outputscale]. *)
Definition outputscale_setter (value : Value) : M t unit := _set_outputscale value.

(** [batch_dims == (0, 2)]. *)
Definition is_0_2 (batch_dims : option (Z * Z)) : bool :=
  match batch_dims with
  | Some (0%Z, 2%Z) => true
  | _ => false
  end.

(** Lines 86 to 91 of [forward]: the call of the base kernel and the
    multiplication by [outputscales]. *)
Definition scale_base_output (outputscales x1 x2 : Tensor A) (batch_dims : option (Z * Z))
    (diag : bool) (params : Params) : M t (CovarianceResult A) :=
  orig_output <- on_base_kernel (kernel_forward x1 x2 batch_dims diag params) ;;
  outputscales <- lift (view outputscales
       (shape outputscales ++ repeat 1 (cov_dim orig_output - dim outputscales))) ;;
  if diag
  then dense <- lift (delazify orig_output) ;;
       lift (rmap DenseResult (tensor_mul dense outputscales))
  else lift (cov_mul orig_output outputscales).

Definition forward (x1 x2 : Tensor A) (batch_dims : option (Z * Z)) (diag : bool)
    (params : Params) : M t (CovarianceResult A) :=
  outputscales <- outputscale ;;
  outputscales <-
    (if is_0_2 batch_dims
     then n <- lift (size_at x1 (-1)) ;;
          lift (repeat_ (unsqueeze outputscales 0) (n :: repeat 1 (dim outputscales)))
     else ret outputscales) ;;
  scale_base_output outputscales x1 x2 batch_dims diag params.

Definition size (x1 x2 : Tensor A) : M t (list nat) :=
  on_base_kernel (kernel_size x1 x2).

(** An optimizer step, from outside: new values are written into the
    parameter in place. *)
Definition optimizer_step (values : list A) : M t unit :=
  fun k => (Ok tt, with_raw_outputscale k (mkTensor (shape (raw_outputscale k)) values)).

(** The state that the class keeps between calls: the parameter has one
    entry per index, and its shape is the one fixed at construction
    ([batch_shape], or no axis at all). *)
Definition valid (k : t) : Prop :=
  well_shaped (raw_outputscale k) /\ shape (raw_outputscale k) = batch_shape k.

(** The attributes that belong to the decorator itself. *)
Definition own_state (k : t) : list nat * Tensor A * Constraint A * option Prior :=
  (batch_shape k, raw_outputscale k, raw_outputscale_constraint k, outputscale_prior k).

End ScaleKernel.

Arguments t A Prior K : clear implicits.

End ScaleKernel.

(** A [ScaleKernel] is a kernel itself, so it can be decorated again. *)
#[export] Instance ScaleKernel_Kernel {A : Type} `{Scalar A} {Params Prior K : Type}
    `{Kernel A Params K} : Kernel A Params (ScaleKernel.t A Prior K) :=
  {| kernel_forward := ScaleKernel.forward; kernel_size := ScaleKernel.size |}.

(** ** The scale with a new leading axis, in the words of the spec

    "Expand [scale] by inserting a new leading axis of size equal to
    [x1]'s trailing dimension, replicating the existing scale values along
    it": [n] copies of the scale, one after the other. *)

Definition with_leading_axis {A : Type} (n : nat) (scale : Tensor A) : Tensor A :=
  mkTensor (n :: shape scale) (concat (repeat (data scale) n)).

(** The scale as it enters the product: trailing size-1 axes are appended
    until it has as many axes as the result of the base kernel (line 87). *)
Definition with_trailing_axes {A : Type} (scale : Tensor A) (rank : nat) : Tensor A :=
  mkTensor (shape scale ++ repeat 1 (rank - dim scale)) (data scale).

(** ** Elementwise products, in the words of the spec

    [entrywise_product R S T]: [T] is "[S] multiplied elementwise into
    [R], entry for entry": it has the broadcast shape of the two, and each
    of its entries is the product of the entry of [S] and the entry of [R]
    that broadcasting puts there. *)

Definition entrywise_product {A : Type} `{Scalar A} (R S T : Tensor A) : Prop :=
  broadcast_shapes (shape R) (shape S) = Ok (shape T) /\
  forall idx, in_bounds (shape T) idx = true ->
    exists r a,
      get R (broadcast_index (shape R) idx) = Some r /\
      get S (broadcast_index (shape S) idx) = Some a /\
      get T idx = Some (smul a r).

(** [batchwise_product batch R scale T]: "each batch slice [i] of the
    scaled result equals [scale[i] * rawResult[i]]", for a scale of shape
    [batch] and a result [R] whose leading axes are the batch axes. *)

Definition batchwise_product {A : Type} `{Scalar A} (batch : list nat) (R scale T : Tensor A)
    : Prop :=
  forall rest, shape R = batch ++ rest ->
    shape T = shape R /\
    forall ib ir, in_bounds batch ib = true -> in_bounds rest ir = true ->
      exists r a,
        get R (ib ++ ir) = Some r /\
        get scale ib = Some a /\
        get T (ib ++ ir) = Some (smul a r).

(** The same under [batch_dims = (0, 2)], where the scale has received a
    leading axis of size [n] and the result [R] of the base kernel has
    that axis in front of its batch axes: batch slice [i] of every slice
    along the leading axis is [scale[i]] times that slice of [R]. *)

Definition batchwise_product_0_2 {A : Type} `{Scalar A} (n : nat) (batch : list nat)
    (R scale T : Tensor A) : Prop :=
  forall rest, shape R = n :: batch ++ rest ->
    shape T = shape R /\
    forall f ib ir, f < n -> in_bounds batch ib = true -> in_bounds rest ir = true ->
      exists r a,
        get R (f :: ib ++ ir) = Some r /\
        get scale ib = Some a /\
        get T (f :: ib ++ ir) = Some (smul a r).

(** [scale_in_use batch_dims x1 s S]: [S] is the scale that [forward]
    multiplies with, given the constrained outputscale [s]: [s] with a
    new leading axis as long as the trailing axis of [x1] when
    [batch_dims] is [(0, 2)], and [s] itself otherwise. *)

Definition scale_in_use {A : Type} (batch_dims : option (Z * Z)) (x1 s S : Tensor A) : Prop :=
  (batch_dims = Some (0%Z, 2%Z) /\
   exists lead n, shape x1 = lead ++ [n] /\ S = with_leading_axis n s)
  \/ (batch_dims <> Some (0%Z, 2%Z) /\ S = s).

(** ** Concrete kernels to run the definitions on *)

Module Examples.

(** A base kernel without state that returns one fixed result. *)
Definition constant_kernel {A : Type} `{Scalar A} (r : CovarianceResult A) : Kernel A unit unit :=
  {| kernel_forward := fun _ _ _ _ _ => ret r;
     kernel_size := fun _ _ => ret match cov_shape r with Ok s => s | Raise _ => [] end |}.

(** A constraint on [Z] that shifts by one: [transform x = x + 1]. *)
Definition shift_constraint : Constraint Z :=
  mkConstraint (fun x => (x + 1)%Z) (fun v => Ok (v - 1)%Z).

(** A kernel with one scale per batch, [batch_shape = [3]], whose
    constrained scales are 1, 2 and 3. *)
Definition batch_kernel : ScaleKernel.t Z unit unit :=
  ScaleKernel.mkScaleKernel tt [3] (mkTensor [3] [0; 1; 2]%Z) shift_constraint None.

(** A dense base result with batch size 3: three batches of two entries. *)
Definition batch_result : CovarianceResult Z :=
  DenseResult (mkTensor [3; 2] [1; 2; 3; 4; 5; 6]%Z).

(** A dense base result with batch size 1. *)
Definition single_batch_result : CovarianceResult Z :=
  DenseResult (mkTensor [1; 2] [5; 7]%Z).

(** The same values behind a lazy representation. *)
Definition lazy_batch_result : CovarianceResult Z :=
  LazyResult (NonLazyTensor (mkTensor [3; 2] [1; 2; 3; 4; 5; 6]%Z)).

(** Inputs: two points with four features each. *)
Definition inputs : Tensor Z := mkTensor [2; 4] [0; 0; 0; 0; 0; 0; 0; 0]%Z.

(** The constrained scales of [batch_kernel]. *)
Definition batch_scales : Tensor Z := mkTensor [3] [1; 2; 3]%Z.

(** [batch_result] with batch [i] multiplied by scale [i]. *)
Definition scaled_batch_result : Tensor Z := mkTensor [3; 2] [1; 2; 6; 8; 15; 18]%Z.

(** The lazy product of [lazy_batch_result] and the scales. *)
Definition lazy_scaled_batch_result : CovarianceResult Z :=
  LazyResult (ConstantMulLazyTensor (NonLazyTensor (mkTensor [3; 2] [1; 2; 3; 4; 5; 6]%Z))
                                    (mkTensor [3; 1] [1; 2; 3]%Z)).

(** [single_batch_result] multiplied by the three scales. *)
Definition scaled_single_batch_result : Tensor Z := mkTensor [3; 2] [5; 7; 10; 14; 15; 21]%Z.

End Examples.

(** ** The real numbers as scalars, and the default constraint *)

Module RealScalars.

#[export] Instance Scalar_R : Scalar R :=
  {| szero := 0%R; smul := Rmult; slt := Rlt; smul_comm := Rmult_comm |}.

(** Modelled from the spec: the class [Positive] of [gpytorch.constraints]
    is not among the sources.  The spec asks for a [transform] that is
    "strictly increasing, bijective onto the positive reals, conventionally
    softplus or exponential", with [transform(0) = 1.0] in its scenarios,
    and an [inverseTransform] that fails outside the positive values; the
    docstring of the class says that the outputscale "is parameterized on
    a log scale".  So: the exponential and the logarithm. *)
Definition Positive : Constraint R :=
  mkConstraint exp (fun v => if Rlt_dec 0 v then Ok (ln v) else Raise InvalidScaleError).

(** The other convention that the spec names, the softplus
    [ln (1 + exp x)], with its inverse [ln (exp v - 1)]. *)
Definition Softplus : Constraint R :=
  mkConstraint (fun x => ln (1 + exp x))
               (fun v => if Rlt_dec 0 v then Ok (ln (exp v - 1)) else Raise InvalidScaleError).

(** The kernel [ScaleKernel(base)] right after construction, over a base
    kernel that returns the constant 2 on a 3 x 3 matrix. *)
Definition constant_two : CovarianceResult R :=
  DenseResult (mkTensor [3; 3] (repeat 2%R 9)).

Definition fresh_kernel : ScaleKernel.t R unit unit :=
  ScaleKernel.__init__ Positive tt None None [].

End RealScalars.

(** ** More kernels to run the definitions on *)

Module MoreExamples.
Import Examples.

(** A base kernel whose [forward] and [size] raise. *)
Definition failing_kernel {A : Type} (code : nat) : Kernel A unit unit :=
  {| kernel_forward := fun _ _ _ _ _ => lift (Raise (KernelError code));
     kernel_size := fun _ _ => lift (Raise (KernelError code)) |}.

(** A constraint on [Z] that changes nothing. *)
Definition identity_constraint : Constraint Z :=
  mkConstraint (fun x => x) (fun v => Ok v).

(** [batch_kernel] under another parameterization: the same constrained
    scales 1, 2 and 3, stored as they are. *)
Definition reparameterized_batch_kernel : ScaleKernel.t Z unit unit :=
  ScaleKernel.mkScaleKernel tt [3] (mkTensor [3] [1; 2; 3]%Z) identity_constraint None.

(** [batch_kernel] decorated once more, with the scales 10, 20 and 30. *)
Definition nested_batch_kernel : ScaleKernel.t Z unit (ScaleKernel.t Z unit unit) :=
  ScaleKernel.mkScaleKernel batch_kernel [3] (mkTensor [3] [9; 19; 29]%Z) shift_constraint None.

(** [batch_result] scaled by [batch_kernel] and then by the outer scales. *)
Definition twice_scaled_batch_result : Tensor Z :=
  mkTensor [3; 2] [10; 20; 120; 160; 450; 540]%Z.


(** A base result without axes: one number. *)
Definition number_result : CovarianceResult Z := DenseResult (tensor 7%Z).

(** A base result with the four features of [inputs] in front of the
    three batches. *)
Definition feature_batch_result : CovarianceResult Z :=
  DenseResult (mkTensor [4; 3] [1; 1; 1; 2; 2; 2; 3; 3; 3; 4; 4; 4]%Z).

Definition scaled_feature_batch_result : Tensor Z :=
  mkTensor [4; 3] [1; 2; 3; 2; 4; 6; 3; 6; 9; 4; 8; 12]%Z.

End MoreExamples.

(** * Lemmas and theorems *)

Unset Implicit Arguments.

(** ** Lists cut into blocks *)

Section ListFacts.
Context {A : Type}.

Lemma numel_of_app (a b : list nat) : numel_of (a ++ b) = numel_of a * numel_of b.
Proof.
  induction a as [|d a IH]; simpl.
  - lia.
  - fold (numel_of (a ++ b)). fold (numel_of a). rewrite IH. lia.
Qed.

Lemma numel_of_ones (n : nat) : numel_of (repeat 1 n) = 1.
Proof. induction n; simpl; [reflexivity|]. fold (numel_of (repeat 1 n)). lia. Qed.

Lemma numel_of_cons (d : nat) (s : list nat) : numel_of (d :: s) = d * numel_of s.
Proof. reflexivity. Qed.

Lemma length_chunks (n size : nat) (l : list A) : length (chunks n size l) = n.
Proof. revert l; induction n; intros; simpl; auto. Qed.

Lemma nth_error_chunks (n size : nat) (l : list A) (i : nat) :
  i < n -> nth_error (chunks n size l) i = Some (firstn size (skipn (i * size) l)).
Proof.
  revert l i; induction n as [|n IH]; intros l i Hi; [lia|].
  destruct i as [|i]; simpl.
  - reflexivity.
  - rewrite IH by lia. rewrite skipn_skipn. do 3 f_equal. lia.
Qed.

Lemma chunks_lengths (n size : nat) (l : list A) :
  length l = n * size -> Forall (fun c => length c = size) (chunks n size l).
Proof.
  revert l; induction n as [|n IH]; intros l Hl; simpl; constructor.
  - rewrite length_firstn. lia.
  - apply IH. rewrite length_skipn. lia.
Qed.

Lemma concat_chunks (n size : nat) (l : list A) :
  length l = n * size -> concat (chunks n size l) = l.
Proof.
  revert l; induction n as [|n IH]; intros l Hl; simpl.
  - destruct l; [reflexivity|discriminate].
  - rewrite IH by (rewrite length_skipn; lia). apply firstn_skipn.
Qed.

Lemma length_concat_uniform (n : nat) (bs : list (list A)) :
  Forall (fun b => length b = n) bs -> length (concat bs) = length bs * n.
Proof.
  induction 1 as [|b bs Hb _ IH]; simpl; [reflexivity|].
  rewrite length_app, IH, Hb. reflexivity.
Qed.

Lemma nth_error_concat_uniform (n : nat) (bs : list (list A)) (i j : nat) (b : list A) :
  Forall (fun b => length b = n) bs ->
  nth_error bs i = Some b -> j < n ->
  nth_error (concat bs) (i * n + j) = nth_error b j.
Proof.
  intros Hall; revert i; induction Hall as [|b0 bs Hb0 _ IH]; intros i Hi Hj.
  - destruct i; discriminate.
  - destruct i as [|i]; simpl in *.
    + injection Hi as ->. apply nth_error_app1. lia.
    + rewrite nth_error_app2 by lia.
      replace (n + i * n + j - length b0) with (i * n + j) by lia.
      now apply IH.
Qed.

Lemma Forall_repeat (P : list A -> Prop) (b : list A) (r : nat) :
  P b -> Forall P (repeat b r).
Proof. intros; induction r; simpl; constructor; auto. Qed.

End ListFacts.

(** ** Tiling row-major data *)

Section TileFacts.
Context {A : Type}.

Lemma zipWith_length {X Y Z : Type} (f : X -> Y -> Z) (l1 : list X) (l2 : list Y) :
  length l1 = length l2 -> length (zipWith f l1 l2) = length l1.
Proof.
  revert l2; induction l1 as [|x l1 IH]; intros [|y l2] Hl; simpl in *; try lia.
  rewrite IH; lia.
Qed.

Lemma ravel_lt (s idx : list nat) :
  in_bounds s idx = true -> ravel s idx < numel_of s.
Proof.
  revert idx; induction s as [|d s IH]; intros [|i idx] Hb; simpl in *; try discriminate.
  - lia.
  - apply andb_prop in Hb as [Hi Hb]. apply Nat.ltb_lt in Hi.
    specialize (IH _ Hb). fold (numel_of s). nia.
Qed.

Lemma tile_data_length (s reps : list nat) (l : list A) :
  length reps = length s -> length l = numel_of s ->
  length (tile_data s reps l) = numel_of (zipWith Nat.mul reps s).
Proof.
  revert reps l; induction s as [|d s IH]; intros [|r reps] l Hr Hl; simpl in *; try lia.
  fold (numel_of s) in *. fold (numel_of (zipWith Nat.mul reps s)).
  assert (Hblocks : Forall (fun b => length b = numel_of (zipWith Nat.mul reps s))
                      (map (tile_data s reps) (chunks d (numel_of s) l))).
  { apply Forall_map. eapply Forall_impl; [|apply chunks_lengths; exact Hl].
    intros c Hc. apply IH; [lia|exact Hc]. }
  rewrite length_concat_uniform with (n := d * numel_of (zipWith Nat.mul reps s)).
  - rewrite repeat_length. lia.
  - apply Forall_repeat. rewrite (length_concat_uniform _ _ Hblocks).
    now rewrite length_map, length_chunks.
Qed.

(** The entry of the tiled data at [idx] is the entry of the data at
    [idx] reduced modulo the shape, axis by axis. *)
Lemma tile_data_nth_error (s reps : list nat) (l : list A) (idx : list nat) :
  length reps = length s -> length l = numel_of s ->
  in_bounds (zipWith Nat.mul reps s) idx = true ->
  nth_error (tile_data s reps l) (ravel (zipWith Nat.mul reps s) idx)
  = nth_error l (ravel s (zipWith Nat.modulo idx s)).
Proof.
  revert reps l idx; induction s as [|d s IH]; intros [|r reps] l [|i idx] Hr Hl Hb;
    simpl in *; try discriminate; try lia.
  - reflexivity.
  - fold (numel_of s) in *. fold (numel_of (zipWith Nat.mul reps s)).
    apply andb_prop in Hb as [Hi Hb]. apply Nat.ltb_lt in Hi.
    set (N' := numel_of (zipWith Nat.mul reps s)).
    set (j := ravel (zipWith Nat.mul reps s) idx).
    assert (Hj : j < N') by (apply ravel_lt; exact Hb).
    assert (Hd : d <> 0) by lia.
    assert (Hm : i mod d < d) by (apply Nat.mod_upper_bound; exact Hd).
    assert (Hq : i / d < r).
    { apply Nat.Div0.div_lt_upper_bound. lia. }
    assert (Hblocks : Forall (fun b => length b = N')
                        (map (tile_data s reps) (chunks d (numel_of s) l))).
    { apply Forall_map. eapply Forall_impl; [|apply chunks_lengths; exact Hl].
      intros c Hc. apply tile_data_length; [lia|exact Hc]. }
    set (B := concat (map (tile_data s reps) (chunks d (numel_of s) l))).
    assert (HB : length B = d * N').
    { unfold B. rewrite (length_concat_uniform _ _ Hblocks).
      now rewrite length_map, length_chunks. }
    replace (i * N' + j) with ((i / d) * (d * N') + (i mod d * N' + j)).
    2:{ rewrite (Nat.div_mod_eq i d) at 3. lia. }
    rewrite nth_error_concat_uniform with (n := d * N') (b := B).
    + unfold B.
      rewrite nth_error_concat_uniform with (n := N')
                 (b := tile_data s reps (firstn (numel_of s) (skipn (i mod d * numel_of s) l))).
      * unfold j. rewrite IH.
        -- rewrite nth_error_firstn.
           assert (Hlt : ravel s (zipWith Nat.modulo idx s) < numel_of s).
           { apply ravel_lt. clear -Hb Hr.
             assert (Hr' : length reps = length s) by lia. clear Hr.
             revert reps idx Hb Hr'. induction s as [|d s IHs]; intros [|r reps] [|i idx] Hb Hr;
               simpl in *; try discriminate; auto.
             apply andb_prop in Hb as [Hi Hb]. apply Nat.ltb_lt in Hi.
             apply andb_true_intro; split.
             - apply Nat.ltb_lt. apply Nat.mod_upper_bound. lia.
             - eapply IHs; eauto. }
           apply Nat.ltb_lt in Hlt. rewrite Hlt.
           now rewrite nth_error_skipn.
        -- lia.
        -- rewrite length_firstn, length_skipn. nia.
        -- exact Hb.
      * exact Hblocks.
      * rewrite nth_error_map, nth_error_chunks by exact Hm. reflexivity.
      * exact Hj.
    + apply Forall_repeat. exact HB.
    + apply nth_error_repeat. exact Hq.
    + nia.
Qed.

End TileFacts.

(** ** Broadcasting *)

Section BroadcastFacts.
Context {A : Type}.

Lemma nth_error_zipWith {X Y Z : Type} (f : X -> Y -> Z) (l1 : list X) (l2 : list Y) (n : nat) :
  nth_error (zipWith f l1 l2) n =
  match nth_error l1 n, nth_error l2 n with
  | Some x, Some y => Some (f x y)
  | _, _ => None
  end.
Proof.
  revert l2 n; induction l1 as [|x l1 IH]; intros [|y l2] [|n]; simpl; auto.
  destruct (nth_error l1 n); reflexivity.
Qed.

Lemma numel_of_pad_left (n : nat) (s : list nat) : numel_of (pad_left n s) = numel_of s.
Proof. unfold pad_left. rewrite numel_of_app, numel_of_ones. lia. Qed.

Lemma expandable_length (s target : list nat) :
  expandable s target = true -> length s = length target.
Proof.
  revert target; induction s as [|d s IH]; intros [|e target] Hx; simpl in *;
    try discriminate; auto.
  apply andb_prop in Hx as [_ Hx]. f_equal. auto.
Qed.

Lemma expandable_reps (s target : list nat) :
  expandable s target = true ->
  zipWith Nat.mul (zipWith (fun d e => if d =? e then 1 else e) s target) s = target.
Proof.
  revert target; induction s as [|d s IH]; intros [|e target] Hx; simpl in *;
    try discriminate; auto.
  apply andb_prop in Hx as [Hd Hx]. rewrite (IH _ Hx). f_equal.
  unfold expandable_dim in Hd.
  destruct (d =? e) eqn:Hde.
  - apply Nat.eqb_eq in Hde. lia.
  - simpl in Hd. apply Nat.eqb_eq in Hd. lia.
Qed.

Lemma expandable_mod (s target idx : list nat) :
  expandable s target = true -> in_bounds target idx = true ->
  zipWith Nat.modulo idx s = zipWith clip s idx.
Proof.
  revert target idx; induction s as [|d s IH]; intros [|e target] [|i idx] Hx Hb;
    simpl in *; try discriminate; auto.
  apply andb_prop in Hx as [Hd Hx]. apply andb_prop in Hb as [Hi Hb].
  apply Nat.ltb_lt in Hi. rewrite (IH _ _ Hx Hb). f_equal.
  unfold expandable_dim in Hd. unfold clip.
  destruct (d =? 1) eqn:Hd1.
  - apply Nat.eqb_eq in Hd1. subst d. apply Nat.mod_1_r.
  - rewrite orb_false_r in Hd. apply Nat.eqb_eq in Hd. subst e.
    apply Nat.mod_small. exact Hi.
Qed.

Lemma expandable_in_bounds (s target idx : list nat) :
  expandable s target = true -> in_bounds target idx = true ->
  in_bounds s (zipWith clip s idx) = true.
Proof.
  revert target idx; induction s as [|d s IH]; intros [|e target] [|i idx] Hx Hb;
    simpl in *; try discriminate; auto.
  apply andb_prop in Hx as [Hd Hx]. apply andb_prop in Hb as [Hi Hb].
  apply Nat.ltb_lt in Hi. rewrite (IH _ _ Hx Hb), andb_true_r.
  unfold expandable_dim in Hd. unfold clip. apply Nat.ltb_lt.
  destruct (d =? 1) eqn:Hd1.
  - apply Nat.eqb_eq in Hd1. lia.
  - rewrite orb_false_r in Hd. apply Nat.eqb_eq in Hd. lia.
Qed.

Lemma in_bounds_length (s idx : list nat) :
  in_bounds s idx = true -> length idx = length s.
Proof.
  revert idx; induction s as [|d s IH]; intros [|i idx] Hb; simpl in *;
    try discriminate; auto.
  apply andb_prop in Hb as [_ Hb]. f_equal. auto.
Qed.

(** Leading size-1 axes do not move an entry. *)
Lemma ravel_ones_prefix (k : nat) (s idx : list nat) :
  length idx = k + length s ->
  ravel (repeat 1 k ++ s) (zipWith clip (repeat 1 k ++ s) idx)
  = ravel s (zipWith clip s (skipn k idx)).
Proof.
  revert idx; induction k as [|k IH]; intros idx Hl; simpl.
  - reflexivity.
  - destruct idx as [|i idx]; simpl in *; [lia|].
    rewrite IH by lia. reflexivity.
Qed.

Lemma in_bounds_ones_prefix (k : nat) (s idx : list nat) :
  length idx = k + length s ->
  in_bounds (repeat 1 k ++ s) (zipWith clip (repeat 1 k ++ s) idx) = true ->
  in_bounds s (zipWith clip s (skipn k idx)) = true.
Proof.
  revert idx; induction k as [|k IH]; intros idx Hl Hb; simpl in *.
  - exact Hb.
  - destruct idx as [|i idx]; simpl in *; [lia|].
    apply IH; [lia|exact Hb].
Qed.

Lemma broadcast_index_clip (s idx : list nat) :
  broadcast_index s idx = zipWith clip s (skipn (length idx - length s) idx).
Proof. reflexivity. Qed.

Lemma expand_shape (t e : Tensor A) (target : list nat) :
  expand t target = Ok e -> shape e = target.
Proof.
  unfold expand. destruct (expandable _ _); [|discriminate].
  intros [= <-]. reflexivity.
Qed.

Lemma expand_ok (t : Tensor A) (target : list nat) :
  expandable (pad_left (length target) (shape t)) target = true ->
  exists e, expand t target = Ok e.
Proof. intros Hx. unfold expand. rewrite Hx. eauto. Qed.

Lemma expand_well_shaped (t e : Tensor A) (target : list nat) :
  well_shaped t -> expand t target = Ok e -> well_shaped e.
Proof.
  unfold expand, well_shaped.
  destruct (expandable _ _) eqn:Hx; [|discriminate].
  intros Hw [= <-]. simpl.
  rewrite tile_data_length.
  - now rewrite expandable_reps.
  - rewrite zipWith_length; [reflexivity|]. now apply expandable_length.
  - now rewrite numel_of_pad_left.
Qed.

Lemma get_in_bounds (t : Tensor A) (idx : list nat) :
  well_shaped t -> in_bounds (shape t) idx = true -> exists a, get t idx = Some a.
Proof.
  intros Hw Hb. unfold get. rewrite Hb.
  destruct (nth_error (data t) (ravel (shape t) idx)) eqn:Hn; [eauto|].
  apply nth_error_None in Hn. apply ravel_lt in Hb. unfold well_shaped in Hw. lia.
Qed.

(** Broadcast index of a target index is within the tensor. *)
Lemma broadcast_index_in_bounds (s target idx : list nat) :
  expandable (pad_left (length target) s) target = true ->
  in_bounds target idx = true ->
  in_bounds s (broadcast_index s idx) = true.
Proof.
  intros Hx Hb. rewrite broadcast_index_clip.
  pose proof (expandable_length _ _ Hx) as Hl.
  pose proof (in_bounds_length _ _ Hb) as Hi.
  unfold pad_left in *. rewrite length_app, repeat_length in Hl.
  rewrite Hi. apply in_bounds_ones_prefix; [lia|].
  eapply expandable_in_bounds; eauto.
Qed.

(** An entry of an expanded tensor is the entry of the tensor at the
    broadcast index. *)
Lemma expand_get (t e : Tensor A) (target idx : list nat) :
  well_shaped t -> expand t target = Ok e -> in_bounds target idx = true ->
  get e idx = get t (broadcast_index (shape t) idx).
Proof.
  intros Hw He Hb. unfold expand in He.
  destruct (expandable _ _) eqn:Hx; [|discriminate].
  injection He as <-. unfold get at 1. simpl. rewrite Hb.
  pose proof (expandable_length _ _ Hx) as Hl.
  pose proof (in_bounds_length _ _ Hb) as Hi.
  pose proof (broadcast_index_in_bounds _ _ _ Hx Hb) as Hbi.
  unfold get. rewrite Hbi.
  replace (ravel target idx)
    with (ravel (zipWith Nat.mul
                   (zipWith (fun d e => if d =? e then 1 else e)
                            (pad_left (length target) (shape t)) target)
                   (pad_left (length target) (shape t))) idx)
    by (now rewrite (expandable_reps _ _ Hx)).
  rewrite tile_data_nth_error.
  - rewrite (expandable_mod _ _ _ Hx Hb). f_equal.
    rewrite broadcast_index_clip. unfold pad_left in *.
    rewrite length_app, repeat_length in Hl. rewrite Hi.
    apply ravel_ones_prefix. lia.
  - rewrite zipWith_length; [reflexivity| exact Hl].
  - rewrite numel_of_pad_left. exact Hw.
  - rewrite (expandable_reps _ _ Hx). exact Hb.
Qed.

Lemma broadcast_dim_expandable (d1 d2 d : nat) :
  broadcast_dim d1 d2 = Some d -> expandable_dim d1 d = true /\ expandable_dim d2 d = true.
Proof.
  unfold broadcast_dim, expandable_dim.
  destruct (d1 =? d2) eqn:H12.
  - apply Nat.eqb_eq in H12. intros [= <-]. subst d2. rewrite Nat.eqb_refl. auto.
  - destruct (d1 =? 1) eqn:H1.
    + intros [= <-]. rewrite Nat.eqb_refl, orb_true_r. auto.
    + destruct (d2 =? 1) eqn:H2; [|discriminate].
      intros [= <-]. rewrite Nat.eqb_refl, orb_true_r. auto.
Qed.

Lemma broadcast_aligned_expandable (s1 s2 s : list nat) :
  broadcast_aligned s1 s2 = Some s -> expandable s1 s = true /\ expandable s2 s = true.
Proof.
  revert s2 s; induction s1 as [|d1 s1 IH]; intros [|d2 s2] s Hs; simpl in *;
    try discriminate.
  - injection Hs as <-. auto.
  - destruct (broadcast_dim d1 d2) as [d|] eqn:Hd; [|discriminate].
    destruct (broadcast_aligned s1 s2) as [s'|] eqn:Hs'; [|discriminate].
    injection Hs as <-. simpl.
    apply broadcast_dim_expandable in Hd as [-> ->].
    apply IH in Hs' as [-> ->]. auto.
Qed.

Lemma broadcast_shapes_expandable (s1 s2 s : list nat) :
  broadcast_shapes s1 s2 = Ok s ->
  length s = Nat.max (length s1) (length s2) /\
  expandable (pad_left (length s) s1) s = true /\
  expandable (pad_left (length s) s2) s = true.
Proof.
  unfold broadcast_shapes.
  destruct (broadcast_aligned _ _) as [s'|] eqn:Hs; [|discriminate].
  intros [= <-]. apply broadcast_aligned_expandable in Hs as [H1 H2].
  assert (Hl : length s' = Nat.max (length s1) (length s2)).
  { apply expandable_length in H1. rewrite <- H1. unfold pad_left.
    rewrite length_app, repeat_length. lia. }
  rewrite Hl. auto.
Qed.

Context `{Scalar A}.

(** The product exists exactly when the shapes broadcast. *)
Lemma tensor_mul_ok (t1 t2 : Tensor A) (s : list nat) :
  broadcast_shapes (shape t1) (shape t2) = Ok s ->
  exists p, tensor_mul t1 t2 = Ok p /\ shape p = s.
Proof.
  intros Hs. unfold tensor_mul. rewrite Hs. simpl.
  apply broadcast_shapes_expandable in Hs as (_ & H1 & H2).
  unfold expand. rewrite H1, H2. simpl. eauto.
Qed.

Lemma tensor_mul_shape (t1 t2 p : Tensor A) :
  tensor_mul t1 t2 = Ok p -> broadcast_shapes (shape t1) (shape t2) = Ok (shape p).
Proof.
  unfold tensor_mul.
  destruct (broadcast_shapes _ _) as [s|] eqn:Hs; [|discriminate]. simpl.
  destruct (expand t1 s); [|discriminate]. simpl.
  destruct (expand t2 s); [|discriminate]. simpl.
  intros [= <-]. reflexivity.
Qed.

(** Every entry of a product is the product of the two entries at the
    broadcast indices. *)
Lemma tensor_mul_get (t1 t2 p : Tensor A) (idx : list nat) :
  well_shaped t1 -> well_shaped t2 -> tensor_mul t1 t2 = Ok p ->
  in_bounds (shape p) idx = true ->
  exists a b,
    get t1 (broadcast_index (shape t1) idx) = Some a /\
    get t2 (broadcast_index (shape t2) idx) = Some b /\
    get p idx = Some (smul a b).
Proof.
  intros Hw1 Hw2 Hp Hb.
  pose proof (tensor_mul_shape _ _ _ Hp) as Hs.
  apply broadcast_shapes_expandable in Hs as (_ & H1 & H2).
  destruct (get_in_bounds _ _ Hw1 (broadcast_index_in_bounds _ _ _ H1 Hb)) as [a Ha].
  destruct (get_in_bounds _ _ Hw2 (broadcast_index_in_bounds _ _ _ H2 Hb)) as [b Hgb].
  exists a, b. repeat split; auto.
  unfold tensor_mul in Hp.
  destruct (broadcast_shapes _ _) as [s|] eqn:Hs; [|discriminate]. simpl in Hp.
  destruct (expand t1 s) as [e1|] eqn:He1; [|discriminate]. simpl in Hp.
  destruct (expand t2 s) as [e2|] eqn:He2; [|discriminate]. simpl in Hp.
  injection Hp as <-. simpl in *.
  pose proof (expand_get _ _ _ _ Hw1 He1 Hb) as G1.
  pose proof (expand_get _ _ _ _ Hw2 He2 Hb) as G2.
  rewrite Ha in G1. rewrite Hgb in G2.
  unfold get in G1, G2 |- *. simpl.
  rewrite (expand_shape _ _ _ He1) in G1. rewrite (expand_shape _ _ _ He2) in G2.
  rewrite Hb in *. rewrite nth_error_zipWith, G1, G2. reflexivity.
Qed.

Lemma tensor_mul_well_shaped (t1 t2 p : Tensor A) :
  well_shaped t1 -> well_shaped t2 -> tensor_mul t1 t2 = Ok p -> well_shaped p.
Proof.
  intros Hw1 Hw2 Hp. unfold tensor_mul in Hp.
  destruct (broadcast_shapes _ _) as [s|] eqn:Hs; [|discriminate]. simpl in Hp.
  destruct (expand t1 s) as [e1|] eqn:He1; [|discriminate]. simpl in Hp.
  destruct (expand t2 s) as [e2|] eqn:He2; [|discriminate]. simpl in Hp.
  injection Hp as <-. unfold well_shaped. simpl.
  pose proof (expand_well_shaped _ _ _ Hw1 He1) as W1.
  pose proof (expand_well_shaped _ _ _ Hw2 He2) as W2.
  unfold well_shaped in W1, W2.
  rewrite (expand_shape _ _ _ He1) in W1. rewrite (expand_shape _ _ _ He2) in W2.
  rewrite zipWith_length; lia.
Qed.

End BroadcastFacts.

(** ** Tiling once, and maps through a tiling *)

Section TileOnce.
Context {A : Type}.

Lemma tile_data_ones (s : list nat) (l : list A) :
  length l = numel_of s -> tile_data s (repeat 1 (length s)) l = l.
Proof.
  revert l; induction s as [|d s IH]; intros l Hl; simpl in *; [reflexivity|].
  fold (numel_of s) in *. rewrite app_nil_r.
  rewrite <- (concat_chunks d (numel_of s) l Hl) at 2. f_equal.
  rewrite <- (map_id (chunks d (numel_of s) l)) at 2.
  apply map_ext_in. intros c Hc.
  apply IH. pose proof (chunks_lengths d (numel_of s) l Hl) as Hall.
  rewrite Forall_forall in Hall. now apply Hall.
Qed.

Lemma chunks_map (f : A -> A) (n size : nat) (l : list A) :
  chunks n size (map f l) = map (map f) (chunks n size l).
Proof.
  revert l; induction n as [|n IH]; intros l; simpl; [reflexivity|].
  now rewrite firstn_map, skipn_map, IH.
Qed.

Lemma concat_repeat_map (f : A -> A) (b : list A) (r : nat) :
  map f (concat (repeat b r)) = concat (repeat (map f b) r).
Proof.
  induction r as [|r IH]; simpl; [reflexivity|]. now rewrite map_app, IH.
Qed.

Lemma tile_data_map (f : A -> A) (s reps : list nat) (l : list A) :
  map f (tile_data s reps l) = tile_data s reps (map f l).
Proof.
  revert reps l; induction s as [|d s IH]; intros [|r reps] l; simpl; try reflexivity.
  rewrite concat_repeat_map. do 2 f_equal.
  rewrite concat_map, chunks_map, !map_map. f_equal.
  apply map_ext. intros c. apply IH.
Qed.

Lemma ones_reps (s : list nat) :
  zipWith (fun d e => if d =? e then 1 else e) s s = repeat 1 (length s).
Proof.
  induction s as [|d s IH]; simpl; [reflexivity|]. now rewrite Nat.eqb_refl, IH.
Qed.

Lemma expandable_refl (s : list nat) : expandable s s = true.
Proof.
  induction s as [|d s IH]; simpl; [reflexivity|].
  unfold expandable_dim. now rewrite Nat.eqb_refl, IH.
Qed.

Lemma pad_left_same (s : list nat) : pad_left (length s) s = s.
Proof. unfold pad_left. now rewrite Nat.sub_diag. Qed.

(** Expanding a tensor to its own shape changes nothing. *)
Lemma expand_same (t : Tensor A) :
  well_shaped t -> expand t (shape t) = Ok t.
Proof.
  intros Hw. unfold expand. rewrite pad_left_same, expandable_refl, ones_reps.
  rewrite tile_data_ones by exact Hw. now destruct t.
Qed.

Lemma concat_repeat_repeat (a : A) (m e : nat) :
  concat (repeat (repeat a m) e) = repeat a (e * m).
Proof.
  induction e as [|e IH]; simpl; [reflexivity|]. now rewrite IH, repeat_app.
Qed.

Lemma tile_data_scalar (target : list nat) (a : A) :
  tile_data (repeat 1 (length target))
            (zipWith (fun d e => if d =? e then 1 else e) (repeat 1 (length target)) target)
            [a]
  = repeat a (numel_of target).
Proof.
  induction target as [|e target IH]; [reflexivity|].
  cbn [length repeat zipWith tile_data]. rewrite numel_of_ones.
  cbn [chunks firstn map concat]. rewrite IH, app_nil_r, concat_repeat_repeat.
  rewrite numel_of_cons. f_equal.
  destruct (1 =? e) eqn:He; [apply Nat.eqb_eq in He; subst e|]; reflexivity.
Qed.

(** Expanding [torch.tensor(a)] fills the target shape with [a]. *)
Lemma expand_scalar (target : list nat) (a : A) :
  expand (tensor a) target = Ok (mkTensor target (repeat a (numel_of target))).
Proof.
  unfold expand, tensor. simpl. unfold pad_left. simpl.
  rewrite Nat.sub_0_r, app_nil_r.
  assert (Hx : expandable (repeat 1 (length target)) target = true).
  { induction target as [|e target IH]; simpl; [reflexivity|].
    unfold expandable_dim. now rewrite IH, Nat.eqb_refl, orb_true_r. }
  now rewrite Hx, tile_data_scalar.
Qed.

Lemma zipWith_mul_ones (s : list nat) :
  zipWith Nat.mul (repeat 1 (length s)) s = s.
Proof.
  induction s as [|d s IH]; simpl; [reflexivity|]. rewrite IH. f_equal. lia.
Qed.

(** [unsqueeze(0)] followed by [repeat(n, 1, ..., 1)] puts [n] copies of
    the tensor one after the other. *)
Lemma repeat_unsqueeze (t : Tensor A) (n : nat) :
  well_shaped t ->
  repeat_ (unsqueeze t 0) (n :: repeat 1 (dim t)) = Ok (with_leading_axis n t).
Proof.
  intros Hw. unfold repeat_, unsqueeze, with_leading_axis, dim. simpl.
  rewrite repeat_length.
  replace (S (length (shape t)) <? S (length (shape t))) with false
    by (symmetry; apply Nat.ltb_irrefl).
  unfold pad_left. simpl. rewrite Nat.sub_diag. simpl.
  fold (numel_of (shape t)). rewrite zipWith_mul_ones, app_nil_r, Nat.mul_1_r.
  rewrite firstn_all2 by (unfold well_shaped in Hw; lia).
  now rewrite tile_data_ones.
Qed.

Lemma view_trailing_axes (t : Tensor A) (rank : nat) :
  view t (shape t ++ repeat 1 (rank - dim t)) = Ok (with_trailing_axes t rank).
Proof.
  unfold view, numel. rewrite numel_of_app, numel_of_ones, Nat.mul_1_r, Nat.eqb_refl.
  reflexivity.
Qed.

Lemma with_trailing_axes_well_shaped (t : Tensor A) (rank : nat) :
  well_shaped t -> well_shaped (with_trailing_axes t rank).
Proof.
  unfold well_shaped, with_trailing_axes. simpl.
  rewrite numel_of_app, numel_of_ones. lia.
Qed.

Lemma with_leading_axis_well_shaped (t : Tensor A) (n : nat) :
  well_shaped t -> well_shaped (with_leading_axis n t).
Proof.
  unfold well_shaped, with_leading_axis. simpl. intros Hw.
  fold (numel_of (shape t)).
  rewrite length_concat_uniform with (n := numel_of (shape t)).
  - now rewrite repeat_length.
  - apply Forall_repeat. exact Hw.
Qed.

(** Along the new leading axis every slice is the tensor itself. *)
Lemma with_leading_axis_get (t : Tensor A) (n j : nat) (idx : list nat) :
  well_shaped t -> j < n ->
  get (with_leading_axis n t) (j :: idx) = get t idx.
Proof.
  intros Hw Hj. unfold get, with_leading_axis. simpl.
  apply Nat.ltb_lt in Hj. rewrite Hj. simpl.
  destruct (in_bounds (shape t) idx) eqn:Hb; [|reflexivity].
  fold (numel_of (shape t)).
  apply nth_error_concat_uniform.
  - apply Forall_repeat. exact Hw.
  - apply nth_error_repeat. now apply Nat.ltb_lt.
  - now apply ravel_lt.
Qed.

End TileOnce.

(** ** Indices of a batch *)

Section BatchIndexFacts.
Context {A : Type}.

Lemma zipWith_app {X Y Z : Type} (f : X -> Y -> Z) (a1 a2 : list X) (b1 b2 : list Y) :
  length a1 = length b1 ->
  zipWith f (a1 ++ a2) (b1 ++ b2) = zipWith f a1 b1 ++ zipWith f a2 b2.
Proof.
  revert b1; induction a1 as [|x a1 IH]; intros [|y b1] Hl; simpl in *; try lia.
  - reflexivity.
  - rewrite IH by lia. reflexivity.
Qed.

Lemma in_bounds_app (s1 s2 i1 i2 : list nat) :
  length s1 = length i1 ->
  in_bounds (s1 ++ s2) (i1 ++ i2) = in_bounds s1 i1 && in_bounds s2 i2.
Proof.
  revert i1; induction s1 as [|d s1 IH]; intros [|i i1] Hl; simpl in *; try lia.
  - reflexivity.
  - rewrite IH by lia. now rewrite andb_assoc.
Qed.

Lemma ravel_app (s1 s2 i1 i2 : list nat) :
  length s1 = length i1 ->
  ravel (s1 ++ s2) (i1 ++ i2) = ravel s1 i1 * numel_of s2 + ravel s2 i2.
Proof.
  revert i1; induction s1 as [|d s1 IH]; intros [|i i1] Hl; simpl in *; try lia.
  fold (numel_of (s1 ++ s2)). fold (numel_of s1).
  rewrite IH by lia. rewrite numel_of_app. lia.
Qed.

Lemma clip_in_bounds (s idx : list nat) :
  in_bounds s idx = true -> zipWith clip s idx = idx.
Proof.
  revert idx; induction s as [|d s IH]; intros [|i idx] Hb; simpl in *;
    try discriminate; auto.
  apply andb_prop in Hb as [Hi Hb]. apply Nat.ltb_lt in Hi.
  rewrite (IH _ Hb). f_equal. unfold clip.
  destruct (d =? 1) eqn:Hd; [apply Nat.eqb_eq in Hd; lia|reflexivity].
Qed.

Lemma broadcast_index_same (s idx : list nat) :
  in_bounds s idx = true -> broadcast_index s idx = idx.
Proof.
  intros Hb. unfold broadcast_index.
  rewrite (in_bounds_length _ _ Hb), Nat.sub_diag. simpl.
  now apply clip_in_bounds.
Qed.

Lemma ravel_ones_clip (m : nat) (idx : list nat) :
  ravel (repeat 1 m) (zipWith clip (repeat 1 m) idx) = 0.
Proof.
  revert idx; induction m as [|m IH]; intros [|i idx]; simpl; auto.
Qed.

Lemma in_bounds_ones_clip (m : nat) (idx : list nat) :
  length idx = m -> in_bounds (repeat 1 m) (zipWith clip (repeat 1 m) idx) = true.
Proof.
  revert idx; induction m as [|m IH]; intros [|i idx] Hl; simpl in *; try lia; auto.
Qed.

(** Under trailing size-1 axes, the scale is read at the batch part of
    the index. *)
Lemma with_trailing_axes_get (t : Tensor A) (rank : nat) (ib ir : list nat) :
  in_bounds (shape t) ib = true -> length ir = rank - dim t ->
  get (with_trailing_axes t rank)
      (broadcast_index (shape (with_trailing_axes t rank)) (ib ++ ir))
  = get t ib.
Proof.
  intros Hb Hr. pose proof (in_bounds_length _ _ Hb) as Hl.
  unfold broadcast_index, with_trailing_axes, get, dim in *. simpl.
  rewrite !length_app, repeat_length.
  replace (length ib + length ir - (length (shape t) + (rank - length (shape t))))
    with 0 by lia.
  simpl. rewrite zipWith_app by lia. rewrite (clip_in_bounds _ _ Hb).
  rewrite in_bounds_app by lia. rewrite Hb, in_bounds_ones_clip by exact Hr.
  simpl. rewrite ravel_app by lia.
  rewrite ravel_ones_clip, numel_of_ones. f_equal. lia.
Qed.

Lemma broadcast_dim_same (d : nat) : broadcast_dim d d = Some d.
Proof. unfold broadcast_dim. now rewrite Nat.eqb_refl. Qed.

Lemma broadcast_dim_one (d : nat) : broadcast_dim d 1 = Some d.
Proof.
  unfold broadcast_dim. destruct (d =? 1) eqn:Hd; [|reflexivity].
  apply Nat.eqb_eq in Hd. now subst.
Qed.

Lemma broadcast_aligned_prefix (batch rest : list nat) :
  broadcast_aligned (batch ++ rest) (batch ++ repeat 1 (length rest)) = Some (batch ++ rest).
Proof.
  induction batch as [|d batch IH]; simpl.
  - induction rest as [|d rest IH]; simpl; [reflexivity|].
    now rewrite broadcast_dim_one, IH.
  - now rewrite broadcast_dim_same, IH.
Qed.

(** A scale whose shape is the leading part of the result's shape
    broadcasts to the result's shape. *)
Lemma broadcast_shapes_prefix (batch rest : list nat) :
  broadcast_shapes (batch ++ rest) (batch ++ repeat 1 (length rest)) = Ok (batch ++ rest).
Proof.
  unfold broadcast_shapes.
  rewrite !length_app, repeat_length, Nat.max_id.
  unfold pad_left. rewrite !length_app, repeat_length, Nat.sub_diag. simpl.
  now rewrite broadcast_aligned_prefix.
Qed.

End BatchIndexFacts.

(** ** Lazy results *)

Section LazyFacts.
Context {A : Type} `{Scalar A}.

Lemma evaluate_shape (l : LazyTensor A) (t : Tensor A) :
  evaluate l = Ok t -> lazy_shape l = Ok (shape t) /\ lazy_dim l = dim t.
Proof.
  revert t; induction l as [t0|base IH constant]; intros t He; simpl in *.
  - injection He as <-. auto.
  - destruct (evaluate base) as [tb|] eqn:Hb; [|discriminate]. simpl in He.
    destruct (IH _ eq_refl) as [Hs Hd]. rewrite Hs, Hd. simpl.
    pose proof (tensor_mul_shape _ _ _ He) as Hm. split; [exact Hm|].
    apply broadcast_shapes_expandable in Hm as [Hl _]. unfold dim. now rewrite Hl.
Qed.

Lemma lazy_shape_evaluate (l : LazyTensor A) (s : list nat) :
  lazy_shape l = Ok s -> exists t, evaluate l = Ok t /\ shape t = s.
Proof.
  revert s; induction l as [t0|base IH constant]; intros s Hs; simpl in *.
  - injection Hs as <-. eauto.
  - destruct (lazy_shape base) as [sb|] eqn:Hb; [|discriminate]. simpl in Hs.
    destruct (IH _ eq_refl) as (tb & -> & Htb). simpl.
    apply tensor_mul_ok. now rewrite Htb.
Qed.

Lemma delazify_shape (r : CovarianceResult A) (t : Tensor A) :
  delazify r = Ok t -> cov_shape r = Ok (shape t) /\ cov_dim r = dim t.
Proof.
  destruct r as [t0|l]; simpl.
  - intros [= <-]. auto.
  - apply evaluate_shape.
Qed.

Lemma cov_shape_delazify (r : CovarianceResult A) (s : list nat) :
  cov_shape r = Ok s -> exists t, delazify r = Ok t /\ shape t = s.
Proof.
  destruct r as [t0|l]; simpl.
  - intros [= <-]. eauto.
  - apply lazy_shape_evaluate.
Qed.

Lemma tensor_mul_raise (t1 t2 : Tensor A) (e : Error) :
  tensor_mul t1 t2 = Raise e ->
  broadcast_shapes (shape t1) (shape t2) = Raise ShapeMismatchError /\ e = ShapeMismatchError.
Proof.
  intros Hm. destruct (broadcast_shapes (shape t1) (shape t2)) as [s|e'] eqn:Hs.
  - destruct (tensor_mul_ok _ _ _ Hs) as (p & Hp & _). congruence.
  - unfold tensor_mul in Hm. rewrite Hs in Hm. simpl in Hm.
    unfold broadcast_shapes in Hs.
    destruct (broadcast_aligned _ _); [discriminate|]. split; congruence.
Qed.

(** Multiplying a result that can be evaluated: the product, in the
    representation of the result, or the error of the product. *)
Lemma cov_mul_delazify (r : CovarianceResult A) (dense other : Tensor A) :
  delazify r = Ok dense ->
  match tensor_mul dense other with
  | Ok p => exists r', cov_mul r other = Ok r' /\ delazify r' = Ok p /\ is_lazy r' = is_lazy r
  | Raise e => cov_mul r other = Raise e
  end.
Proof.
  intros Hd. destruct r as [t0|l]; simpl in *.
  - injection Hd as ->. destruct (tensor_mul dense other) as [p|e]; simpl; eauto.
  - destruct (evaluate_shape _ _ Hd) as [Hs _].
    unfold lazy_mul. simpl. rewrite Hs. simpl.
    destruct (tensor_mul dense other) as [p|e] eqn:Hm.
    + rewrite (tensor_mul_shape _ _ _ Hm). simpl.
      exists (LazyResult (ConstantMulLazyTensor l other)). simpl.
      rewrite Hd. simpl. auto.
    + apply tensor_mul_raise in Hm as [-> ->]. reflexivity.
Qed.

End LazyFacts.

(** ** Products, entry by entry and batch by batch *)

Section ProductFacts.
Context {A : Type} `{Scalar A}.

Lemma tensor_mul_entrywise (R S T : Tensor A) :
  well_shaped R -> well_shaped S -> tensor_mul R S = Ok T -> entrywise_product R S T.
Proof.
  intros HR HS Hm. split; [now apply tensor_mul_shape|].
  intros idx Hb.
  destruct (tensor_mul_get R S T idx HR HS Hm Hb) as (r & a & Hr & Ha & Ht).
  exists r, a. rewrite smul_comm. auto.
Qed.

Lemma tensor_mul_batchwise (batch : list nat) (R scale T : Tensor A) :
  well_shaped R -> well_shaped scale -> shape scale = batch ->
  tensor_mul R (with_trailing_axes scale (dim R)) = Ok T ->
  batchwise_product batch R scale T.
Proof.
  intros HR Hs Hshape Hm rest HRs.
  assert (Hrank : dim R - dim scale = length rest).
  { unfold dim. rewrite HRs, Hshape, length_app. lia. }
  assert (HT : shape T = shape R).
  { pose proof (tensor_mul_shape _ _ _ Hm) as Hbs. simpl in Hbs.
    rewrite Hrank, Hshape, HRs, broadcast_shapes_prefix in Hbs.
    injection Hbs as <-. now rewrite HRs. }
  split; [exact HT|]. intros ib ir Hib Hir.
  assert (Hidx : in_bounds (shape T) (ib ++ ir) = true).
  { rewrite HT, HRs, in_bounds_app by (symmetry; now apply in_bounds_length).
    now rewrite Hib, Hir. }
  destruct (tensor_mul_entrywise R _ T HR (with_trailing_axes_well_shaped _ _ Hs) Hm)
    as [_ Hentries].
  destruct (Hentries _ Hidx) as (r & a & Hr & Ha & Hget).
  exists r, a. repeat split; [| |exact Hget].
  - rewrite broadcast_index_same in Hr; [exact Hr|]. now rewrite <- HT.
  - rewrite with_trailing_axes_get in Ha; [exact Ha| |].
    + now rewrite Hshape.
    + rewrite Hrank. now apply in_bounds_length.
Qed.

Lemma tensor_mul_batchwise_0_2 (n : nat) (batch : list nat) (R scale T : Tensor A) :
  well_shaped R -> well_shaped scale -> shape scale = batch ->
  tensor_mul R (with_trailing_axes (with_leading_axis n scale) (dim R)) = Ok T ->
  batchwise_product_0_2 n batch R scale T.
Proof.
  intros HR Hs Hshape Hm rest HRs.
  destruct (tensor_mul_batchwise (n :: batch) R (with_leading_axis n scale) T HR
              (with_leading_axis_well_shaped _ n Hs)
              ltac:(simpl; now rewrite Hshape) Hm rest HRs) as [HT Hslices].
  split; [exact HT|]. intros f ib ir Hf Hib Hir.
  destruct (Hslices (f :: ib) ir) as (r & a & Hr & Ha & Hget).
  - simpl. apply Nat.ltb_lt in Hf. now rewrite Hf, Hib.
  - exact Hir.
  - exists r, a. rewrite with_leading_axis_get in Ha by assumption. auto.
Qed.

Lemma broadcast_shapes_prefix_eq (batch rest sT : list nat) :
  broadcast_shapes (batch ++ rest) (batch ++ repeat 1 (length rest)) = Ok sT ->
  sT = batch ++ rest.
Proof. rewrite broadcast_shapes_prefix. congruence. Qed.

End ProductFacts.

(** ** The methods of the class, step by step *)

Section ScaleKernelFacts.
Context {A : Type} `{Scalar A} {Params Prior K : Type} `{Kernel A Params K}.

Abbreviation SK := (ScaleKernel.t A Prior K).
Abbreviation constrained k :=
  (transform (ScaleKernel.raw_outputscale_constraint k) (ScaleKernel.raw_outputscale k)).

Lemma transform_well_shaped (c : Constraint A) (t : Tensor A) :
  well_shaped t -> well_shaped (transform c t).
Proof. unfold well_shaped, transform, tensor_map. simpl. now rewrite length_map. Qed.

Lemma with_base_kernel_same (k : SK) :
  ScaleKernel.with_base_kernel k (ScaleKernel.base_kernel k) = k.
Proof. now destruct k. Qed.

Lemma outputscale_run (k : SK) :
  ScaleKernel.outputscale k = (Ok (constrained k), k).
Proof. reflexivity. Qed.

Lemma is_0_2_true (batch_dims : option (Z * Z)) :
  ScaleKernel.is_0_2 batch_dims = true <-> batch_dims = Some (0%Z, 2%Z).
Proof.
  split; [|now intros ->].
  destruct batch_dims as [[[|a|a] [|[b|[b|b|]|]|b]]|]; simpl; try discriminate. reflexivity.
Qed.

Lemma is_0_2_false (batch_dims : option (Z * Z)) :
  ScaleKernel.is_0_2 batch_dims = false <-> batch_dims <> Some (0%Z, 2%Z).
Proof.
  rewrite <- is_0_2_true. destruct (ScaleKernel.is_0_2 batch_dims); split; congruence.
Qed.

Lemma size_at_shape (x : Tensor A) (lead : list nat) (n : nat) :
  shape x = lead ++ [n] -> size_at x (-1) = Ok n.
Proof.
  intros Hs. unfold size_at, dim. rewrite Hs, length_app. cbn [length].
  change (-1 <? 0)%Z with true. cbv iota.
  set (m := length lead).
  assert (E : (-1 + Z.of_nat (m + 1))%Z = Z.of_nat m) by lia. rewrite E.
  assert (E1 : (0 <=? Z.of_nat m)%Z = true) by (apply Z.leb_le; lia).
  assert (E2 : (Z.of_nat m <? Z.of_nat (m + 1))%Z = true) by (apply Z.ltb_lt; lia).
  rewrite E1, E2. cbn [andb]. unfold m.
  rewrite Nat2Z.id, nth_error_app2, Nat.sub_diag by lia. reflexivity.
Qed.

Lemma size_at_last (x : Tensor A) (n : nat) :
  size_at x (-1) = Ok n <-> exists lead, shape x = lead ++ [n].
Proof.
  split.
  - destruct (shape x) as [|d lead _] eqn:Hs using rev_ind.
    + unfold size_at, dim. rewrite Hs. cbn. discriminate.
    + intros Hn. rewrite (size_at_shape x lead d Hs) in Hn.
      injection Hn as ->. eauto.
  - intros [lead Hs]. eapply size_at_shape; eauto.
Qed.

(** Lines 86 to 91, once the base kernel has returned. *)
Lemma scale_base_output_run (S x1 x2 : Tensor A) (batch_dims : option (Z * Z)) (diag : bool)
    (params : Params) (k : SK) (orig : CovarianceResult A) (b' : K) :
  kernel_forward x1 x2 batch_dims diag params (ScaleKernel.base_kernel k) = (Ok orig, b') ->
  ScaleKernel.scale_base_output S x1 x2 batch_dims diag params k =
  ((if diag
    then rbind (delazify orig) (fun dense =>
           rmap DenseResult (tensor_mul dense (with_trailing_axes S (cov_dim orig))))
    else cov_mul orig (with_trailing_axes S (cov_dim orig))),
   ScaleKernel.with_base_kernel k b').
Proof.
  intros Hb. unfold ScaleKernel.scale_base_output, bind, ScaleKernel.on_base_kernel, lift.
  rewrite Hb, view_trailing_axes.
  destruct diag; [|reflexivity].
  destruct (delazify orig); reflexivity.
Qed.

Lemma scale_base_output_raise (S x1 x2 : Tensor A) (batch_dims : option (Z * Z)) (diag : bool)
    (params : Params) (k : SK) (e : Error) (b' : K) :
  kernel_forward x1 x2 batch_dims diag params (ScaleKernel.base_kernel k) = (Raise e, b') ->
  ScaleKernel.scale_base_output S x1 x2 batch_dims diag params k =
  (Raise e, ScaleKernel.with_base_kernel k b').
Proof.
  intros Hb. unfold ScaleKernel.scale_base_output, bind, ScaleKernel.on_base_kernel.
  now rewrite Hb.
Qed.

(** [forward] when [batch_dims] is not [(0, 2)]. *)
Lemma forward_run_plain (x1 x2 : Tensor A) (batch_dims : option (Z * Z)) (diag : bool)
    (params : Params) (k : SK) :
  batch_dims <> Some (0%Z, 2%Z) ->
  ScaleKernel.forward x1 x2 batch_dims diag params k =
  ScaleKernel.scale_base_output (constrained k) x1 x2 batch_dims diag params k.
Proof.
  intros Hbd. apply is_0_2_false in Hbd.
  unfold ScaleKernel.forward, bind. rewrite outputscale_run, Hbd. reflexivity.
Qed.

(** [forward] when [batch_dims] is [(0, 2)]. *)
Lemma forward_run_0_2 (x1 x2 : Tensor A) (diag : bool) (params : Params) (k : SK) :
  well_shaped (ScaleKernel.raw_outputscale k) ->
  ScaleKernel.forward x1 x2 (Some (0%Z, 2%Z)) diag params k =
  match size_at x1 (-1) with
  | Ok n => ScaleKernel.scale_base_output (with_leading_axis n (constrained k))
              x1 x2 (Some (0%Z, 2%Z)) diag params k
  | Raise e => (Raise e, k)
  end.
Proof.
  intros Hw. unfold ScaleKernel.forward, bind. rewrite outputscale_run. simpl.
  unfold lift. destruct (size_at x1 (-1)) as [n|e]; [|reflexivity].
  rewrite repeat_unsqueeze by (apply transform_well_shaped; exact Hw).
  reflexivity.
Qed.

(** What comes out of lines 86 to 91 when they succeed: the product of the
    evaluated base result and the scale, in the representation that the
    call asks for; the state only records what the base kernel did. *)
Lemma scale_base_output_ok (S x1 x2 : Tensor A) (batch_dims : option (Z * Z)) (diag : bool)
    (params : Params) (k k' : SK) (res : CovarianceResult A) :
  ScaleKernel.scale_base_output S x1 x2 batch_dims diag params k = (Ok res, k') ->
  exists orig b' R T,
    kernel_forward x1 x2 batch_dims diag params (ScaleKernel.base_kernel k) = (Ok orig, b') /\
    k' = ScaleKernel.with_base_kernel k b' /\
    delazify orig = Ok R /\
    delazify res = Ok T /\
    tensor_mul R (with_trailing_axes S (dim R)) = Ok T /\
    is_lazy res = negb diag && is_lazy orig.
Proof.
  intros Hrun.
  destruct (kernel_forward x1 x2 batch_dims diag params (ScaleKernel.base_kernel k))
    as [[orig|e] b'] eqn:Hb.
  2:{ rewrite (scale_base_output_raise S _ _ _ _ _ _ _ _ Hb) in Hrun. discriminate. }
  rewrite (scale_base_output_run S _ _ _ _ _ _ _ _ Hb) in Hrun.
  injection Hrun as Hres <-. exists orig, b'.
  destruct diag; simpl in *.
  - destruct (delazify orig) as [R|] eqn:Hd; [|discriminate]. simpl in Hres.
    destruct (delazify_shape _ _ Hd) as [_ Hdim]. rewrite Hdim in Hres.
    destruct (tensor_mul R _) as [T|] eqn:Hm; [|discriminate]. simpl in Hres.
    injection Hres as <-. exists R, T. simpl. auto 10.
  - assert (Hd : exists R, delazify orig = Ok R).
    { destruct orig as [t0|l]; simpl in *; [eauto|].
      unfold lazy_mul in Hres. simpl in Hres.
      destruct (lazy_shape l) as [s|] eqn:Hs; [|discriminate].
      destruct (lazy_shape_evaluate _ _ Hs) as (t & Ht & _). eauto. }
    destruct Hd as [R Hd]. destruct (delazify_shape _ _ Hd) as [_ Hdim].
    rewrite Hdim in Hres.
    pose proof (cov_mul_delazify orig R (with_trailing_axes S (dim R)) Hd) as Hc.
    destruct (tensor_mul R _) as [T|e] eqn:Hm.
    + destruct Hc as (r' & Hr' & Hdr & Hl). rewrite Hr' in Hres. injection Hres as <-.
      exists R, T. auto 10.
    + congruence.
Qed.

(** ... and they do succeed whenever the base kernel returns a result that
    can be evaluated and the shapes broadcast. *)
Lemma scale_base_output_succeeds (S x1 x2 : Tensor A) (batch_dims : option (Z * Z))
    (diag : bool) (params : Params) (k : SK) (orig : CovarianceResult A) (b' : K)
    (R T : Tensor A) :
  kernel_forward x1 x2 batch_dims diag params (ScaleKernel.base_kernel k) = (Ok orig, b') ->
  delazify orig = Ok R ->
  tensor_mul R (with_trailing_axes S (dim R)) = Ok T ->
  exists res,
    ScaleKernel.scale_base_output S x1 x2 batch_dims diag params k
    = (Ok res, ScaleKernel.with_base_kernel k b') /\
    delazify res = Ok T.
Proof.
  intros Hb Hd Hm. rewrite (scale_base_output_run S _ _ _ _ _ _ _ _ Hb).
  destruct (delazify_shape _ _ Hd) as [_ Hdim]. rewrite Hdim.
  destruct diag.
  - rewrite Hd. simpl. rewrite Hm. simpl. eauto.
  - pose proof (cov_mul_delazify orig R (with_trailing_axes S (dim R)) Hd) as Hc.
    rewrite Hm in Hc. destruct Hc as (r' & -> & Hdr & _). eauto.
Qed.

End ScaleKernelFacts.

(** ** The kernel: construction, evaluation and size *)

Section ScaleKernelTheorems.
Context {A : Type} `{Scalar A} {Params Prior K : Type} `{Kernel A Params K}.

Abbreviation SK := (ScaleKernel.t A Prior K).
Abbreviation constrained k :=
  (transform (ScaleKernel.raw_outputscale_constraint k) (ScaleKernel.raw_outputscale k)).

(** The scale that [forward] multiplies with, and what lines 86 to 91 make
    of it, whenever [forward] returns. *)
Lemma forward_ok (x1 x2 : Tensor A) (batch_dims : option (Z * Z)) (diag : bool)
    (params : Params) (k k' : SK) (res : CovarianceResult A) :
  well_shaped (ScaleKernel.raw_outputscale k) ->
  ScaleKernel.forward x1 x2 batch_dims diag params k = (Ok res, k') ->
  exists S,
    scale_in_use batch_dims x1 (constrained k) S /\
    well_shaped S /\
    ScaleKernel.scale_base_output S x1 x2 batch_dims diag params k = (Ok res, k').
Proof.
  intros Hw Hf.
  pose proof (transform_well_shaped (ScaleKernel.raw_outputscale_constraint k) _ Hw) as Hs.
  destruct (ScaleKernel.is_0_2 batch_dims) eqn:Hbd.
  - apply is_0_2_true in Hbd. subst batch_dims.
    rewrite forward_run_0_2 in Hf by exact Hw.
    destruct (size_at x1 (-1)) as [n|e] eqn:Hn; [|discriminate].
    apply size_at_last in Hn as [lead Hlead].
    exists (with_leading_axis n (constrained k)). repeat split.
    + left. split; [reflexivity|]. eauto.
    + now apply with_leading_axis_well_shaped.
    + exact Hf.
  - apply is_0_2_false in Hbd. rewrite forward_run_plain in Hf by exact Hbd.
    exists (constrained k). repeat split; [|exact Hs|exact Hf]. now right.
Qed.

(** C1. Whatever the inputs and the keywords, a result that [forward]
    returns is the constrained outputscale multiplied elementwise into the
    result of the base kernel, entry for entry, with [diag] and without:
    evaluated, it has the broadcast shape, and each entry is the product of
    the scale's entry and the base result's entry there.  And when the
    scale has one entry per batch (shape [batch_shape], as for
    [batch_shape = [3]]) and the base result has these batches in front,
    slice [i] of the result is [scale[i] * rawResult[i]]; under
    [batch_dims = (0, 2)] the same holds behind the leading axis that the
    scale receives. *)
Theorem forward_multiplies_every_entry
    (x1 x2 : Tensor A) (batch_dims : option (Z * Z)) (diag : bool) (params : Params)
    (k k' : SK) (orig res : CovarianceResult A) (b' : K) (R : Tensor A) :
  ScaleKernel.valid k ->
  kernel_forward x1 x2 batch_dims diag params (ScaleKernel.base_kernel k) = (Ok orig, b') ->
  delazify orig = Ok R ->
  well_shaped R ->
  ScaleKernel.forward x1 x2 batch_dims diag params k = (Ok res, k') ->
  exists S T,
    scale_in_use batch_dims x1 (constrained k) S /\
    delazify res = Ok T /\
    entrywise_product R (with_trailing_axes S (dim R)) T /\
    (batch_dims <> Some (0%Z, 2%Z) ->
     batchwise_product (ScaleKernel.batch_shape k) R (constrained k) T) /\
    (batch_dims = Some (0%Z, 2%Z) ->
     forall lead n, shape x1 = lead ++ [n] ->
       batchwise_product_0_2 n (ScaleKernel.batch_shape k) R (constrained k) T).
Proof.
  intros [Hw Hshape] Hb Hd HR Hf.
  destruct (forward_ok _ _ _ _ _ _ _ _ Hw Hf) as (S & Hin & HS & Hrun).
  apply scale_base_output_ok in Hrun
    as (orig' & b'' & R' & T & Hb' & _ & Hd' & HdT & Hm & _).
  rewrite Hb in Hb'. injection Hb' as <- <-.
  rewrite Hd in Hd'. injection Hd' as <-.
  pose proof (transform_well_shaped (ScaleKernel.raw_outputscale_constraint k) _ Hw) as Hs.
  exists S, T. split; [exact Hin|]. split; [exact HdT|]. split; [|split].
  - exact (tensor_mul_entrywise R _ T HR (with_trailing_axes_well_shaped _ _ HS) Hm).
  - intros Hbd. destruct Hin as [[Hyes _]|[_ ->]]; [contradiction|].
    apply tensor_mul_batchwise; auto.
  - intros Hbd lead n Hlead.
    destruct Hin as [(_ & lead' & n' & Hlead' & ->)|[Hno _]]; [|contradiction].
    rewrite Hlead in Hlead'. apply app_inj_tail in Hlead' as [_ <-].
    apply tensor_mul_batchwise_0_2; auto.
Qed.

(** C7. With [batch_dims] equal to [(0, 2)] the scale enters the
    multiplication with a new leading axis whose size is the trailing
    dimension of [x1], and every slice along that axis is the scale itself;
    with any other [batch_dims] the scale enters as it is. *)
Theorem forward_expands_scale_only_for_0_2
    (x1 x2 : Tensor A) (diag : bool) (params : Params) (k : SK) :
  well_shaped (ScaleKernel.raw_outputscale k) ->
  (forall lead n, shape x1 = lead ++ [n] ->
     ScaleKernel.forward x1 x2 (Some (0%Z, 2%Z)) diag params k
     = ScaleKernel.scale_base_output (with_leading_axis n (constrained k))
         x1 x2 (Some (0%Z, 2%Z)) diag params k
     /\ shape (with_leading_axis n (constrained k)) = n :: shape (constrained k)
     /\ forall j idx, j < n ->
          get (with_leading_axis n (constrained k)) (j :: idx) = get (constrained k) idx)
  /\ (forall batch_dims, batch_dims <> Some (0%Z, 2%Z) ->
        ScaleKernel.forward x1 x2 batch_dims diag params k
        = ScaleKernel.scale_base_output (constrained k) x1 x2 batch_dims diag params k).
Proof.
  intros Hw. split.
  - intros lead n Hlead. repeat split.
    + rewrite forward_run_0_2 by exact Hw.
      now rewrite (size_at_shape x1 lead n Hlead).
    + intros j idx Hj. apply with_leading_axis_get; [|exact Hj].
      apply transform_well_shaped. exact Hw.
  - intros batch_dims Hbd. now apply forward_run_plain.
Qed.

(** C8, as the code has it.  With [diag] the result is dense; without
    [diag] it is lazy exactly when the result of the base kernel is.  Its
    shape is the broadcast of the shape of the base result and of the shape
    of the scale, trailing size-1 axes appended; this is the shape of the
    base result whenever the scale's axes are the leading axes of the base
    result (so also for a scale without axes). *)
Theorem forward_representation_and_shape
    (x1 x2 : Tensor A) (batch_dims : option (Z * Z)) (diag : bool) (params : Params)
    (k k' : SK) (orig res : CovarianceResult A) (b' : K) :
  well_shaped (ScaleKernel.raw_outputscale k) ->
  kernel_forward x1 x2 batch_dims diag params (ScaleKernel.base_kernel k) = (Ok orig, b') ->
  ScaleKernel.forward x1 x2 batch_dims diag params k = (Ok res, k') ->
  is_lazy res = negb diag && is_lazy orig /\
  exists S sR sT,
    scale_in_use batch_dims x1 (constrained k) S /\
    cov_shape orig = Ok sR /\
    cov_shape res = Ok sT /\
    broadcast_shapes sR (shape S ++ repeat 1 (length sR - dim S)) = Ok sT /\
    (forall rest, sR = shape S ++ rest -> sT = sR).
Proof.
  intros Hw Hb Hf.
  destruct (forward_ok _ _ _ _ _ _ _ _ Hw Hf) as (S & Hin & HS & Hrun).
  apply scale_base_output_ok in Hrun
    as (orig' & b'' & R & T & Hb' & _ & Hd & HdT & Hm & Hl).
  rewrite Hb in Hb'. injection Hb' as <- <-.
  split; [exact Hl|].
  exists S, (shape R), (shape T).
  destruct (delazify_shape _ _ Hd) as [HsR _].
  destruct (delazify_shape _ _ HdT) as [HsT _].
  apply tensor_mul_shape in Hm. simpl in Hm.
  repeat split; try assumption.
  intros rest Hrest. unfold dim in Hm. rewrite Hrest in Hm |- *.
  rewrite length_app in Hm.
  replace (length (shape S) + length rest - length (shape S)) with (length rest) in Hm by lia.
  now apply broadcast_shapes_prefix_eq in Hm.
Qed.

(** C9. [forward] leaves the state of the decorator as it was, whatever it
    returns or raises: the parameter [raw_outputscale] (values and shape),
    the constraint, the batch shape and the prior.  The only attribute that
    can differ is the base kernel, and only by what its own [forward] did
    to it. *)
Theorem forward_leaves_own_state
    (x1 x2 : Tensor A) (batch_dims : option (Z * Z)) (diag : bool) (params : Params) (k : SK) :
  let k' := snd (ScaleKernel.forward x1 x2 batch_dims diag params k) in
  ScaleKernel.raw_outputscale k' = ScaleKernel.raw_outputscale k /\
  ScaleKernel.own_state k' = ScaleKernel.own_state k /\
  (k' = k \/
   k' = ScaleKernel.with_base_kernel k
          (snd (kernel_forward x1 x2 batch_dims diag params (ScaleKernel.base_kernel k)))).
Proof.
  assert (Hstep : forall S,
    snd (ScaleKernel.scale_base_output S x1 x2 batch_dims diag params k)
    = ScaleKernel.with_base_kernel k
        (snd (kernel_forward x1 x2 batch_dims diag params (ScaleKernel.base_kernel k)))).
  { intros S.
    destruct (kernel_forward x1 x2 batch_dims diag params (ScaleKernel.base_kernel k))
      as [[orig|e] b'] eqn:Hb.
    - now rewrite (scale_base_output_run S _ _ _ _ _ _ _ _ Hb).
    - now rewrite (scale_base_output_raise S _ _ _ _ _ _ _ _ Hb). }
  assert (Hcases :
    snd (ScaleKernel.forward x1 x2 batch_dims diag params k) = k \/
    snd (ScaleKernel.forward x1 x2 batch_dims diag params k)
    = ScaleKernel.with_base_kernel k
        (snd (kernel_forward x1 x2 batch_dims diag params (ScaleKernel.base_kernel k)))).
  { unfold ScaleKernel.forward, bind. rewrite outputscale_run.
    destruct (ScaleKernel.is_0_2 batch_dims).
    - unfold lift. destruct (size_at x1 (-1)) as [n|e]; [|now left].
      destruct (repeat_ _ _) as [S|e]; [|now left].
      right. apply Hstep.
    - right. apply Hstep. }
  cbv zeta. destruct Hcases as [-> | ->]; repeat split; auto.
Qed.

(** C10. The constrained outputscale is computed from the parameter at
    every access: a read, an update of the parameter from outside, and a
    second read give the transform of the updated parameter; so does a read
    after the setter; and [forward] on the updated state multiplies with
    the transform of the updated parameter. *)
Theorem outputscale_is_never_cached (k : SK) (values : list A) :
  let c := ScaleKernel.raw_outputscale_constraint k in
  let updated := mkTensor (shape (ScaleKernel.raw_outputscale k)) values in
  let k1 := snd (ScaleKernel.optimizer_step values k) in
  (s1 <- ScaleKernel.outputscale ;;
   _ <- ScaleKernel.optimizer_step values ;;
   s2 <- ScaleKernel.outputscale ;;
   ret s2) k = (Ok (transform c updated), k1)
  /\ (forall value k2,
        ScaleKernel._set_outputscale value k = (Ok tt, k2) ->
        ScaleKernel.outputscale k2
        = (Ok (transform c (ScaleKernel.raw_outputscale k2)), k2))
  /\ (forall x1 x2 batch_dims diag (params : Params),
        batch_dims <> Some (0%Z, 2%Z) ->
        ScaleKernel.forward x1 x2 batch_dims diag params k1
        = ScaleKernel.scale_base_output (transform c updated) x1 x2 batch_dims diag params k1).
Proof.
  cbv zeta. repeat split.
  - intros value k2 Hset. rewrite outputscale_run.
    unfold ScaleKernel._set_outputscale, bind, gets, lift in Hset.
    destruct (inverse_transform _ _) as [v|e]; [|discriminate].
    unfold ScaleKernel.initialize_raw_outputscale in Hset.
    destruct (expand v _) as [v'|e]; [|discriminate].
    injection Hset as <-. reflexivity.
  - intros x1 x2 batch_dims diag params Hbd. now rewrite forward_run_plain.
Qed.

(** C4. [size] returns what the [size] of the base kernel returns. *)
Theorem size_is_the_size_of_the_base_kernel (x1 x2 : Tensor A) (k : SK) :
  fst (ScaleKernel.size x1 x2 k) = fst (kernel_size x1 x2 (ScaleKernel.base_kernel k)) /\
  ScaleKernel.own_state (snd (ScaleKernel.size x1 x2 k)) = ScaleKernel.own_state k.
Proof.
  unfold ScaleKernel.size, ScaleKernel.on_base_kernel.
  destruct (kernel_size x1 x2 (ScaleKernel.base_kernel k)). auto.
Qed.

(** C6. At construction the parameter is all zeros, of shape [batch_shape]
    when that is not empty, and the 0-dimensional tensor 0 when it is. *)
Theorem init_creates_zero_parameter (Positive : Constraint A) (base_kernel : K)
    (outputscale_prior : option Prior) (outputscale_constraint : option (Constraint A))
    (batch_shape : list nat) :
  let k := ScaleKernel.__init__ Positive base_kernel outputscale_prior
             outputscale_constraint batch_shape in
  shape (ScaleKernel.raw_outputscale k) = batch_shape /\
  data (ScaleKernel.raw_outputscale k) = repeat szero (numel_of batch_shape) /\
  ScaleKernel.raw_outputscale
    (ScaleKernel.__init__ Positive base_kernel outputscale_prior outputscale_constraint [])
  = mkTensor [] [szero] /\
  dim (ScaleKernel.raw_outputscale
         (ScaleKernel.__init__ Positive base_kernel outputscale_prior outputscale_constraint []))
  = 0.
Proof.
  cbv zeta. repeat split.
  - destruct batch_shape; reflexivity.
  - destruct batch_shape; reflexivity.
Qed.

End ScaleKernelTheorems.

(** ** The constrained parameter *)

Section ConstraintFacts.
Context {A : Type} `{Scalar A}.

Lemma mapM_inverse (c : Constraint A) (l : list A) :
  (forall v, slt szero v ->
     exists x, inverse_transform_entry c v = Ok x /\ transform_entry c x = v) ->
  Forall (slt szero) l ->
  exists xs, mapM (inverse_transform_entry c) l = Ok xs /\ map (transform_entry c) xs = l.
Proof.
  intros Hinv. induction 1 as [|v l Hv _ IH]; simpl.
  - exists []. auto.
  - destruct (Hinv v Hv) as (x & -> & Hx). destruct IH as (xs & -> & Hxs). simpl.
    exists (x :: xs). simpl. now rewrite Hx, Hxs.
Qed.

Lemma mapM_rejects (c : Constraint A) (l : list A) :
  positivity_contract c ->
  Exists (fun v => ~ slt szero v) l ->
  mapM (inverse_transform_entry c) l = Raise InvalidScaleError.
Proof.
  intros Hc. induction 1 as [v l Hv|v l _ IH]; simpl.
  - now rewrite (inverse_rejects Hc v Hv).
  - destruct (inverse_transform_entry c v) as [x|e] eqn:Hx; simpl.
    + now rewrite IH.
    + assert (Hv : ~ slt szero v).
      { intros Hpos. destruct (inverse_defined Hc v Hpos) as (x & Hx' & _). congruence. }
      rewrite (inverse_rejects Hc v Hv) in Hx. congruence.
Qed.

(** On positive values [inverse_transform] returns a tensor that
    [transform] maps back. *)
Lemma inverse_transform_defined (c : Constraint A) (v : Tensor A) :
  positivity_contract c -> Forall (slt szero) (data v) ->
  exists w, inverse_transform c v = Ok w /\ transform c w = v /\ shape w = shape v.
Proof.
  intros Hc Hpos.
  destruct (mapM_inverse c (data v) (inverse_defined Hc) Hpos) as (xs & Hxs & Hmap).
  exists (mkTensor (shape v) xs). unfold inverse_transform, transform, tensor_map.
  rewrite Hxs. simpl. rewrite Hmap. now destruct v.
Qed.

Lemma expand_transform (c : Constraint A) (w e : Tensor A) (target : list nat) :
  expand (transform c w) target = Ok e ->
  exists e', expand w target = Ok e' /\ transform c e' = e.
Proof.
  unfold expand, transform, tensor_map. simpl.
  destruct (expandable _ _); [|discriminate].
  intros [= <-]. eexists. split; [reflexivity|]. simpl. now rewrite tile_data_map.
Qed.

End ConstraintFacts.

Section ConstrainedParameter.
Context {A : Type} `{Scalar A} {Params Prior K : Type} `{Kernel A Params K}.

Abbreviation SK := (ScaleKernel.t A Prior K).

(** Setting a tensor of positive values: the parameter receives values
    that [transform] maps back to the tensor, broadcast to the shape of the
    parameter. *)
Lemma set_outputscale_tensor (k : SK) (v e : Tensor A) :
  positivity_contract (ScaleKernel.raw_outputscale_constraint k) ->
  Forall (slt szero) (data v) ->
  expand v (shape (ScaleKernel.raw_outputscale k)) = Ok e ->
  exists k',
    ScaleKernel._set_outputscale (ScaleKernel.TensorValue v) k = (Ok tt, k') /\
    ScaleKernel.outputscale k' = (Ok e, k') /\
    ScaleKernel.base_kernel k' = ScaleKernel.base_kernel k /\
    ScaleKernel.batch_shape k' = ScaleKernel.batch_shape k /\
    shape (ScaleKernel.raw_outputscale k') = shape (ScaleKernel.raw_outputscale k).
Proof.
  intros Hc Hpos He.
  destruct (inverse_transform_defined _ v Hc Hpos) as (w & Hw & Htw & Hsw).
  rewrite <- Htw in He. apply expand_transform in He as (e' & He' & Hte).
  exists (ScaleKernel.with_raw_outputscale k e').
  unfold ScaleKernel._set_outputscale, bind, gets, lift,
    ScaleKernel.initialize_raw_outputscale.
  rewrite Hw, He'. rewrite outputscale_run. simpl. rewrite Hte.
  repeat split. now apply expand_shape in He'.
Qed.

(** The round trip through the setter and the getter, for a number, for a
    tensor that broadcasts to the parameter, and for a tensor of the
    parameter's shape. *)
Lemma round_trip_under_contract (k : SK) :
  positivity_contract (ScaleKernel.raw_outputscale_constraint k) ->
  (forall a, slt szero a ->
     exists k',
       ScaleKernel._set_outputscale (ScaleKernel.Number a) k = (Ok tt, k') /\
       ScaleKernel.outputscale k'
       = (Ok (mkTensor (shape (ScaleKernel.raw_outputscale k))
                (repeat a (numel_of (shape (ScaleKernel.raw_outputscale k))))), k'))
  /\ (forall v e, Forall (slt szero) (data v) ->
        expand v (shape (ScaleKernel.raw_outputscale k)) = Ok e ->
        exists k',
          ScaleKernel._set_outputscale (ScaleKernel.TensorValue v) k = (Ok tt, k') /\
          ScaleKernel.outputscale k' = (Ok e, k'))
  /\ (forall v, Forall (slt szero) (data v) -> well_shaped v ->
        shape v = shape (ScaleKernel.raw_outputscale k) ->
        exists k',
          ScaleKernel._set_outputscale (ScaleKernel.TensorValue v) k = (Ok tt, k') /\
          ScaleKernel.outputscale k' = (Ok v, k')).
Proof.
  intros Hc. split; [|split].
  - intros a Ha.
    destruct (set_outputscale_tensor k (tensor a)
                (mkTensor (shape (ScaleKernel.raw_outputscale k))
                   (repeat a (numel_of (shape (ScaleKernel.raw_outputscale k))))) Hc)
      as (k' & Hset & Hget & _).
    + constructor; [exact Ha|constructor].
    + apply expand_scalar.
    + exists k'. split; [exact Hset|exact Hget].
  - intros v e Hpos He.
    destruct (set_outputscale_tensor k v e Hc Hpos He) as (k' & Hset & Hget & _). eauto.
  - intros v Hpos Hw Hshape.
    destruct (set_outputscale_tensor k v v Hc Hpos) as (k' & Hset & Hget & _).
    + rewrite <- Hshape. now apply expand_same.
    + eauto.
Qed.

(** Whatever the parameter holds, the getter returns its transform, and
    every entry of it is positive. *)
Lemma positive_under_contract (k : SK) :
  positivity_contract (ScaleKernel.raw_outputscale_constraint k) ->
  forall raw : Tensor A,
    let k' := ScaleKernel.with_raw_outputscale k raw in
    exists s,
      ScaleKernel.outputscale k' = (Ok s, k') /\
      s = transform (ScaleKernel.raw_outputscale_constraint k) raw /\
      shape s = shape raw /\
      Forall (slt szero) (data s).
Proof.
  intros Hc raw. cbv zeta. eexists. split; [apply outputscale_run|].
  split; [reflexivity|]. split; [reflexivity|]. simpl.
  apply Forall_map. apply Forall_forall. intros x _. apply (transform_positive Hc).
Qed.

(** A value with an entry that is not positive: the setter raises, and
    the object is as it was before the call. *)
Lemma rejects_under_contract (k : SK) :
  positivity_contract (ScaleKernel.raw_outputscale_constraint k) ->
  (forall a, ~ slt szero a ->
     ScaleKernel._set_outputscale (ScaleKernel.Number a) k = (Raise InvalidScaleError, k))
  /\ (forall v, Exists (fun x => ~ slt szero x) (data v) ->
        ScaleKernel._set_outputscale (ScaleKernel.TensorValue v) k
        = (Raise InvalidScaleError, k))
  /\ (forall value,
        fst (ScaleKernel.outputscale_setter value k) = Raise InvalidScaleError ->
        ScaleKernel.raw_outputscale (snd (ScaleKernel.outputscale_setter value k))
        = ScaleKernel.raw_outputscale k).
Proof.
  intros Hc.
  assert (Hten : forall v, Exists (fun x => ~ slt szero x) (data v) ->
     ScaleKernel._set_outputscale (ScaleKernel.TensorValue v) k
     = (Raise InvalidScaleError, k)).
  { intros v Hv.
    unfold ScaleKernel._set_outputscale, bind, gets, lift, inverse_transform.
    now rewrite (mapM_rejects _ (data v) Hc Hv). }
  split; [|split].
  - intros a Ha. apply (Hten (tensor a)). now constructor.
  - exact Hten.
  - intros value.
    unfold ScaleKernel.outputscale_setter, ScaleKernel._set_outputscale, bind, gets, lift,
      ScaleKernel.initialize_raw_outputscale.
    destruct (inverse_transform _ _) as [v|e]; [|reflexivity].
    destruct (expand v _) as [v'|e]; [discriminate|reflexivity].
Qed.

End ConstrainedParameter.

(** ** The invariant of the parameter

    The shape of the parameter is fixed at construction and its data
    always fill that shape. *)

Section ParameterInvariant.
Context {A : Type} `{Scalar A} {Params Prior K : Type} `{Kernel A Params K}.

Abbreviation SK := (ScaleKernel.t A Prior K).



Lemma zeros_well_shaped (s : list nat) : well_shaped (zeros (A := A) s).
Proof. unfold well_shaped, zeros. simpl. apply repeat_length. Qed.

Lemma init_valid (Positive : Constraint A) (base_kernel : K) (prior : option Prior)
    (constraint : option (Constraint A)) (batch_shape : list nat) :
  ScaleKernel.valid (ScaleKernel.__init__ Positive base_kernel prior constraint batch_shape).
Proof.
  unfold ScaleKernel.valid, ScaleKernel.__init__. simpl.
  destruct batch_shape as [|d s]; simpl.
  - split; reflexivity.
  - split; [apply (zeros_well_shaped (d :: s))|reflexivity].
Qed.


Lemma forward_valid (x1 x2 : Tensor A) (batch_dims : option (Z * Z)) (diag : bool)
    (params : Params) (k : SK) :
  ScaleKernel.valid k ->
  ScaleKernel.valid (snd (ScaleKernel.forward x1 x2 batch_dims diag params k)).
Proof.
  assert (Hstep : forall S,
    snd (ScaleKernel.scale_base_output S x1 x2 batch_dims diag params k)
    = ScaleKernel.with_base_kernel k
        (snd (kernel_forward x1 x2 batch_dims diag params (ScaleKernel.base_kernel k)))).
  { intros S.
    destruct (kernel_forward x1 x2 batch_dims diag params (ScaleKernel.base_kernel k))
      as [[orig|e] b'] eqn:Hb.
    - now rewrite (scale_base_output_run S _ _ _ _ _ _ _ _ Hb).
    - now rewrite (scale_base_output_raise S _ _ _ _ _ _ _ _ Hb). }
  intros Hv. unfold ScaleKernel.forward, bind. rewrite outputscale_run.
  destruct (ScaleKernel.is_0_2 batch_dims).
  - unfold lift. destruct (size_at x1 (-1)) as [n|e]; [|exact Hv].
    destruct (repeat_ _ _) as [S|e]; [|exact Hv].
    rewrite Hstep. exact Hv.
  - unfold ret. rewrite Hstep. exact Hv.
Qed.

(** With one scale per batch and a base result that has the batches in
    front, [forward] returns a result whenever the base kernel does. *)
Lemma forward_succeeds (x1 x2 : Tensor A) (batch_dims : option (Z * Z)) (diag : bool)
    (params : Params) (k : SK) (orig : CovarianceResult A) (b' : K) (R : Tensor A)
    (rest : list nat) :
  ScaleKernel.valid k ->
  batch_dims <> Some (0%Z, 2%Z) ->
  kernel_forward x1 x2 batch_dims diag params (ScaleKernel.base_kernel k) = (Ok orig, b') ->
  delazify orig = Ok R ->
  shape R = ScaleKernel.batch_shape k ++ rest ->
  exists res,
    ScaleKernel.forward x1 x2 batch_dims diag params k
    = (Ok res, ScaleKernel.with_base_kernel k b').
Proof.
  intros [Hw Hs] Hbd Hb Hd HR. rewrite forward_run_plain by exact Hbd.
  set (s := transform (ScaleKernel.raw_outputscale_constraint k)
                      (ScaleKernel.raw_outputscale k)).
  destruct (tensor_mul_ok R (with_trailing_axes s (dim R)) (shape R)) as (T & HT & _).
  { unfold with_trailing_axes, dim, s. simpl. rewrite Hs, HR, length_app.
    replace (length (ScaleKernel.batch_shape k) + length rest
             - length (ScaleKernel.batch_shape k)) with (length rest) by lia.
    apply broadcast_shapes_prefix. }
  destruct (scale_base_output_succeeds s _ _ _ _ _ _ _ _ _ _ Hb Hd HT) as (res & Hres & _).
  eauto.
Qed.

End ParameterInvariant.

(** ** The theorems on concrete kernels *)

Section OnIntegers.
Import Examples.

Lemma forward_multiplies_every_entry_batch :
  exists S T,
    scale_in_use None inputs batch_scales S /\
    delazify (DenseResult scaled_batch_result) = Ok T /\
    entrywise_product (mkTensor [3; 2] [1; 2; 3; 4; 5; 6]%Z) (with_trailing_axes S 2) T /\
    (None <> Some (0%Z, 2%Z) ->
     batchwise_product [3] (mkTensor [3; 2] [1; 2; 3; 4; 5; 6]%Z) batch_scales T) /\
    (None = Some (0%Z, 2%Z) ->
     forall lead n, shape inputs = lead ++ [n] ->
       batchwise_product_0_2 n [3] (mkTensor [3; 2] [1; 2; 3; 4; 5; 6]%Z) batch_scales T).
Proof.
  exact (@forward_multiplies_every_entry Z _ unit unit unit (constant_kernel batch_result)
           inputs inputs None true tt batch_kernel batch_kernel batch_result
           (DenseResult scaled_batch_result) tt (mkTensor [3; 2] [1; 2; 3; 4; 5; 6]%Z)
           (conj eq_refl eq_refl) eq_refl eq_refl eq_refl eq_refl).
Defined.

Lemma forward_expands_scale_on_inputs :
  @ScaleKernel.forward Z _ unit unit unit (constant_kernel batch_result)
     inputs inputs (Some (0%Z, 2%Z)) true tt batch_kernel
  = @ScaleKernel.scale_base_output Z _ unit unit unit (constant_kernel batch_result)
      (with_leading_axis 4 batch_scales) inputs inputs (Some (0%Z, 2%Z)) true tt batch_kernel.
Proof.
  exact (proj1 (proj1 (@forward_expands_scale_only_for_0_2 Z _ unit unit unit
                         (constant_kernel batch_result) inputs inputs true tt batch_kernel
                         eq_refl) [2] 4 eq_refl)).
Defined.

Lemma forward_representation_and_shape_lazy :
  is_lazy lazy_scaled_batch_result = negb false && is_lazy lazy_batch_result /\
  exists S sR sT,
    scale_in_use None inputs batch_scales S /\
    cov_shape lazy_batch_result = Ok sR /\
    cov_shape lazy_scaled_batch_result = Ok sT /\
    broadcast_shapes sR (shape S ++ repeat 1 (length sR - dim S)) = Ok sT /\
    (forall rest, sR = shape S ++ rest -> sT = sR).
Proof.
  exact (@forward_representation_and_shape Z _ unit unit unit (constant_kernel lazy_batch_result)
           inputs inputs None false tt batch_kernel batch_kernel lazy_batch_result
           lazy_scaled_batch_result tt eq_refl eq_refl eq_refl).
Defined.

(** [batch_dims = (0, 2)] on values: the inputs have four features, the
    base result has the four features in front of the three batches, and
    every batch is multiplied by its scale. *)
Lemma forward_0_2_on_values :
  fst (@ScaleKernel.forward Z _ unit unit unit
         (constant_kernel
            (DenseResult (mkTensor [4; 3] [1; 1; 1; 2; 2; 2; 3; 3; 3; 4; 4; 4]%Z)))
         inputs inputs (Some (0%Z, 2%Z)) true tt batch_kernel)
  = Ok (DenseResult (mkTensor [4; 3] [1; 2; 3; 2; 4; 6; 3; 6; 9; 4; 8; 12]%Z)).
Proof. reflexivity. Qed.

(** Counterexample to "the scaled result has the same logical shape as the
    raw result": three scales against a base result with one batch give a
    result with three batches. *)
Lemma scaled_shape_differs_from_raw_shape :
  @ScaleKernel.forward Z _ unit unit unit (constant_kernel single_batch_result)
     inputs inputs None true tt batch_kernel
  = (Ok (DenseResult scaled_single_batch_result), batch_kernel) /\
  cov_shape (DenseResult scaled_single_batch_result) = Ok [3; 2] /\
  cov_shape single_batch_result = Ok [1; 2] /\
  cov_shape (DenseResult scaled_single_batch_result) <> cov_shape single_batch_result.
Proof.
  repeat split; try reflexivity. discriminate.
Qed.

Lemma outputscale_is_never_cached_on_batch :
  @ScaleKernel.forward Z _ unit unit unit (constant_kernel batch_result)
     inputs inputs None true tt
     (snd (ScaleKernel.optimizer_step [10; 20; 30]%Z batch_kernel))
  = @ScaleKernel.scale_base_output Z _ unit unit unit (constant_kernel batch_result)
      (mkTensor [3] [11; 21; 31]%Z) inputs inputs None true tt
      (snd (ScaleKernel.optimizer_step [10; 20; 30]%Z batch_kernel)).
Proof.
  exact (proj2 (proj2 (@outputscale_is_never_cached Z _ unit unit unit
                         (constant_kernel batch_result) batch_kernel [10; 20; 30]%Z))
           inputs inputs None true tt ltac:(discriminate)).
Defined.

End OnIntegers.

Section OnReals.
Import RealScalars.
Local Open Scope R_scope.
Context {Params Prior K : Type} `{Kernel R Params K}.

Abbreviation SK := (ScaleKernel.t R Prior K).

(** The exponential and the logarithm honour the contract of a positivity
    constraint. *)
Lemma Positive_contract : positivity_contract Positive.
Proof.
  constructor; simpl.
  - apply exp_pos.
  - intros v Hv. destruct (Rlt_dec 0 v) as [_|Hn]; [|contradiction].
    exists (ln v). split; [reflexivity|]. now apply exp_ln.
  - intros v Hv. destruct (Rlt_dec 0 v); [contradiction|reflexivity].
Qed.

(** So does the softplus with its inverse. *)
Lemma Softplus_contract : positivity_contract Softplus.
Proof.
  constructor; simpl.
  - intros x. rewrite <- ln_1. apply ln_increasing; [lra|].
    pose proof (exp_pos x). lra.
  - intros v Hv. destruct (Rlt_dec 0 v) as [_|Hn]; [|contradiction].
    exists (ln (exp v - 1)). split; [reflexivity|].
    assert (Hexp : 1 < exp v) by (rewrite <- exp_0; now apply exp_increasing).
    rewrite exp_ln by lra.
    replace (1 + (exp v - 1)) with (exp v) by lra. apply ln_exp.
  - intros v Hv. destruct (Rlt_dec 0 v); [contradiction|reflexivity].
Qed.

(** The constraint of a kernel: the default one, or one that was passed to
    the constructor and honours the contract. *)
Lemma constraint_contract (k : SK) :
  ScaleKernel.raw_outputscale_constraint k = Positive \/
  positivity_contract (ScaleKernel.raw_outputscale_constraint k) ->
  positivity_contract (ScaleKernel.raw_outputscale_constraint k).
Proof. intros [-> | Hc]; [apply Positive_contract|exact Hc]. Qed.

(** C2. For a kernel with the default constraint (or any constraint that
    honours the contract) and every positive [v]: the constraint maps
    [inverse_transform(v)] back to [v], and after the setter has been
    called with [v] the getter returns [v]: a number comes back in every
    entry of the outputscale, a tensor comes back broadcast to the shape of
    the parameter, and as it is when it has that shape already.  On the
    real numbers the two are equal, so they are within every tolerance. *)
Theorem outputscale_round_trip (k : SK) :
  ScaleKernel.raw_outputscale_constraint k = Positive \/
  positivity_contract (ScaleKernel.raw_outputscale_constraint k) ->
  (forall v : Tensor R, Forall (Rlt 0) (data v) ->
     exists w,
       inverse_transform (ScaleKernel.raw_outputscale_constraint k) v = Ok w /\
       transform (ScaleKernel.raw_outputscale_constraint k) w = v)
  /\ (forall v : R, 0 < v ->
        exists k',
          ScaleKernel.outputscale_setter (ScaleKernel.Number v) k = (Ok tt, k') /\
          ScaleKernel.outputscale k'
          = (Ok (mkTensor (shape (ScaleKernel.raw_outputscale k))
                   (repeat v (numel_of (shape (ScaleKernel.raw_outputscale k))))), k'))
  /\ (forall v e : Tensor R, Forall (Rlt 0) (data v) ->
        expand v (shape (ScaleKernel.raw_outputscale k)) = Ok e ->
        exists k',
          ScaleKernel.outputscale_setter (ScaleKernel.TensorValue v) k = (Ok tt, k') /\
          ScaleKernel.outputscale k' = (Ok e, k'))
  /\ (forall v : Tensor R, Forall (Rlt 0) (data v) -> well_shaped v ->
        shape v = shape (ScaleKernel.raw_outputscale k) ->
        exists k',
          ScaleKernel.outputscale_setter (ScaleKernel.TensorValue v) k = (Ok tt, k') /\
          ScaleKernel.outputscale k' = (Ok v, k')).
Proof.
  intros Hc. apply constraint_contract in Hc.
  split.
  - intros v Hv. destruct (inverse_transform_defined _ v Hc Hv) as (w & Hw & Htw & _).
    eauto.
  - exact (round_trip_under_contract k Hc).
Qed.

(** C3. For a kernel with the default constraint (or any constraint that
    honours the contract) and whatever the parameter holds, however large
    or small, every entry of the outputscale, the transform of the
    parameter, is strictly positive. *)
Theorem outputscale_is_positive (k : SK) :
  ScaleKernel.raw_outputscale_constraint k = Positive \/
  positivity_contract (ScaleKernel.raw_outputscale_constraint k) ->
  forall raw : Tensor R,
    let k' := ScaleKernel.with_raw_outputscale k raw in
    exists s,
      ScaleKernel.outputscale k' = (Ok s, k') /\
      s = transform (ScaleKernel.raw_outputscale_constraint k) raw /\
      shape s = shape raw /\
      Forall (Rlt 0) (data s).
Proof.
  intros Hc. apply constraint_contract in Hc. exact (positive_under_contract k Hc).
Qed.

(** C5. For a kernel with the default constraint (or any constraint that
    honours the contract): the setter called with a value that is not
    positive, such as -1, raises [InvalidScaleError], and the object, with
    its parameter, is as it was before the call. *)
Theorem set_outputscale_rejects_invalid (k : SK) :
  ScaleKernel.raw_outputscale_constraint k = Positive \/
  positivity_contract (ScaleKernel.raw_outputscale_constraint k) ->
  ScaleKernel.outputscale_setter (ScaleKernel.Number (-1)) k = (Raise InvalidScaleError, k)
  /\ (forall v : R, ~ 0 < v ->
        ScaleKernel.outputscale_setter (ScaleKernel.Number v) k
        = (Raise InvalidScaleError, k))
  /\ (forall v : Tensor R, Exists (fun x => ~ 0 < x) (data v) ->
        ScaleKernel.outputscale_setter (ScaleKernel.TensorValue v) k
        = (Raise InvalidScaleError, k))
  /\ (forall value,
        fst (ScaleKernel.outputscale_setter value k) = Raise InvalidScaleError ->
        ScaleKernel.raw_outputscale (snd (ScaleKernel.outputscale_setter value k))
        = ScaleKernel.raw_outputscale k).
Proof.
  intros Hc. apply constraint_contract in Hc.
  destruct (rejects_under_contract k Hc) as (Hnum & Hten & Hraw).
  split; [|auto]. apply Hnum. simpl. lra.
Qed.

End OnReals.

Section OnRealsConcrete.
Import RealScalars.
Local Open Scope R_scope.

Lemma outputscale_round_trip_three :
  exists k',
    ScaleKernel.outputscale_setter (ScaleKernel.Number 3) fresh_kernel = (Ok tt, k') /\
    ScaleKernel.outputscale k' = (Ok (mkTensor [] [3]), k').
Proof.
  exact (proj1 (proj2 (@outputscale_round_trip unit unit fresh_kernel
                         (or_introl eq_refl)))
           3 ltac:(lra)).
Defined.

Lemma outputscale_is_positive_far_out :
  let k' := ScaleKernel.with_raw_outputscale fresh_kernel (mkTensor [2%nat] [-1000; 1000]) in
  exists s,
    ScaleKernel.outputscale k' = (Ok s, k') /\
    s = transform Positive (mkTensor [2%nat] [-1000; 1000]) /\
    shape s = [2%nat] /\
    Forall (Rlt 0) (data s).
Proof.
  exact (@outputscale_is_positive unit unit fresh_kernel (or_introl eq_refl)
           (mkTensor [2%nat] [-1000; 1000])).
Defined.

Lemma set_outputscale_rejects_minus_one :
  ScaleKernel.outputscale_setter (ScaleKernel.Number (-1)) fresh_kernel
  = (Raise InvalidScaleError, fresh_kernel).
Proof.
  exact (proj1 (@set_outputscale_rejects_invalid unit unit fresh_kernel
                  (or_introl eq_refl))).
Defined.

End OnRealsConcrete.

Section Scenario.
Import RealScalars.
Local Open Scope R_scope.

(** The scenario of the spec: the base kernel returns the constant 2 on a
    3 x 3 matrix and the parameter starts at 0, so the kernel returns 2
    everywhere; after the outputscale has been set to 3 it returns 6
    everywhere. *)
Lemma constant_two_scenario :
  fst (@ScaleKernel.forward R _ unit unit unit (Examples.constant_kernel constant_two)
         (tensor 0) (tensor 0) None false tt fresh_kernel)
  = Ok (DenseResult (mkTensor [3%nat; 3%nat] (repeat 2 9)))
  /\ forall k',
       ScaleKernel._set_outputscale (ScaleKernel.Number 3) fresh_kernel = (Ok tt, k') ->
       fst (@ScaleKernel.forward R _ unit unit unit (Examples.constant_kernel constant_two)
              (tensor 0) (tensor 0) None false tt k')
       = Ok (DenseResult (mkTensor [3%nat; 3%nat] (repeat 6 9))).
Proof.
  split.
  - cbn. rewrite exp_0. repeat rewrite Rmult_1_r. reflexivity.
  - intros k' Hset.
    unfold ScaleKernel._set_outputscale, bind, gets, lift, inverse_transform,
      ScaleKernel.to, tensor in Hset.
    simpl in Hset.
    destruct (Rlt_dec 0 3) as [_|Hn]; [|exfalso; apply Hn; lra].
    cbn in Hset. injection Hset as <-.
    cbn. rewrite exp_ln by lra.
    replace (2 * 3) with 6 by lra. reflexivity.
Qed.

End Scenario.

(** ** Evaluation, outcome by outcome *)

Section ForwardOutcomes.
Context {A : Type} `{Scalar A} {Params Prior K : Type} `{Kernel A Params K}.

Abbreviation SK := (ScaleKernel.t A Prior K).
Abbreviation constrained k :=
  (transform (ScaleKernel.raw_outputscale_constraint k) (ScaleKernel.raw_outputscale k)).

(** [repeat] with one size more than the tensor has axes never fails. *)
Lemma repeat_unsqueeze_ok (t : Tensor A) (n : nat) :
  exists S, repeat_ (unsqueeze t 0) (n :: repeat 1 (dim t)) = Ok S.
Proof.
  unfold repeat_, unsqueeze, dim. simpl. rewrite repeat_length.
  replace (S (length (shape t)) <? S (length (shape t))) with false
    by (symmetry; apply Nat.ltb_irrefl).
  eauto.
Qed.

(** [forward] is lines 86 to 91 on the scale in use. *)
Lemma forward_with_scale (x1 x2 : Tensor A) (batch_dims : option (Z * Z)) (diag : bool)
    (params : Params) (k : SK) (S : Tensor A) :
  well_shaped (ScaleKernel.raw_outputscale k) ->
  scale_in_use batch_dims x1 (constrained k) S ->
  ScaleKernel.forward x1 x2 batch_dims diag params k
  = ScaleKernel.scale_base_output S x1 x2 batch_dims diag params k.
Proof.
  intros Hw [(-> & lead & n & Hlead & ->)|[Hbd ->]].
  - rewrite forward_run_0_2 by exact Hw. now rewrite (size_at_shape x1 lead n Hlead).
  - now apply forward_run_plain.
Qed.

Lemma scale_in_use_well_shaped (batch_dims : option (Z * Z)) (x1 s S : Tensor A) :
  well_shaped s -> scale_in_use batch_dims x1 s S -> well_shaped S.
Proof.
  intros Hs [(_ & lead & n & _ & ->)|[_ ->]]; [|exact Hs].
  now apply with_leading_axis_well_shaped.
Qed.

(** Lines 86 to 91 on a scale whose axes are the leading axes of the base
    result: they return, and the result is the product. *)
Lemma scale_base_output_on_prefix (S x1 x2 : Tensor A) (batch_dims : option (Z * Z))
    (diag : bool) (params : Params) (k : SK) (orig : CovarianceResult A) (b' : K)
    (R : Tensor A) (rest : list nat) :
  well_shaped S -> well_shaped R ->
  kernel_forward x1 x2 batch_dims diag params (ScaleKernel.base_kernel k) = (Ok orig, b') ->
  delazify orig = Ok R ->
  shape R = shape S ++ rest ->
  exists res T,
    ScaleKernel.scale_base_output S x1 x2 batch_dims diag params k
    = (Ok res, ScaleKernel.with_base_kernel k b') /\
    delazify res = Ok T /\
    tensor_mul R (with_trailing_axes S (dim R)) = Ok T /\
    well_shaped T /\
    shape T = shape R /\
    is_lazy res = negb diag && is_lazy orig.
Proof.
  intros HS HR Hb Hd Hshape.
  destruct (tensor_mul_ok R (with_trailing_axes S (dim R)) (shape R)) as (T & HT & HsT).
  { unfold with_trailing_axes, dim. simpl. rewrite Hshape, length_app.
    replace (length (shape S) + length rest - length (shape S)) with (length rest) by lia.
    apply broadcast_shapes_prefix. }
  destruct (scale_base_output_succeeds S _ _ _ _ _ _ _ _ _ _ Hb Hd HT) as (res & Hres & HdT).
  exists res, T. repeat split; try assumption.
  - exact (tensor_mul_well_shaped _ _ _ HR (with_trailing_axes_well_shaped _ _ HS) HT).
  - destruct (scale_base_output_ok _ _ _ _ _ _ _ _ _ Hres)
      as (orig' & b'' & _ & _ & Hb' & _ & _ & _ & _ & Hl).
    rewrite Hb in Hb'. injection Hb' as <- _. exact Hl.
Qed.

(** X1. With [batch_dims = (0, 2)] and an [x1] without axes, [forward]
    raises [IndexError] at [x1.size(-1)]: the base kernel is not called and
    the object is as it was. *)
Theorem forward_0_2_needs_an_axis
    (x1 x2 : Tensor A) (diag : bool) (params : Params) (k : SK) :
  shape x1 = [] ->
  ScaleKernel.forward x1 x2 (Some (0%Z, 2%Z)) diag params k = (Raise IndexError, k).
Proof.
  intros Hx. unfold ScaleKernel.forward, bind. rewrite outputscale_run.
  cbn [ScaleKernel.is_0_2]. unfold lift, size_at, dim. rewrite Hx. reflexivity.
Qed.

(** X2. What the base kernel raises, [forward] raises: no product is
    attempted, and the state only records what the base kernel did to
    itself.  (Under [batch_dims = (0, 2)] the base kernel is reached when
    [x1] has a trailing axis.) *)
Theorem forward_propagates_base_errors
    (x1 x2 : Tensor A) (batch_dims : option (Z * Z)) (diag : bool) (params : Params)
    (k : SK) (e : Error) (b' : K) :
  kernel_forward x1 x2 batch_dims diag params (ScaleKernel.base_kernel k) = (Raise e, b') ->
  (batch_dims = Some (0%Z, 2%Z) -> exists lead n, shape x1 = lead ++ [n]) ->
  ScaleKernel.forward x1 x2 batch_dims diag params k
  = (Raise e, ScaleKernel.with_base_kernel k b').
Proof.
  intros Hb Hx. unfold ScaleKernel.forward, bind. rewrite outputscale_run.
  destruct (ScaleKernel.is_0_2 batch_dims) eqn:Hbd.
  - apply is_0_2_true in Hbd. destruct (Hx Hbd) as (lead & n & Hlead).
    unfold lift. rewrite (size_at_shape x1 lead n Hlead).
    destruct (repeat_unsqueeze_ok (constrained k) n) as [S ->].
    now apply scale_base_output_raise.
  - unfold ret. now apply scale_base_output_raise.
Qed.



(** X5. With [batch_dims = (0, 2)]: when [x1] has a trailing axis of size
    [n] and the base kernel returns a result that has an axis of size [n]
    and then the batches of the kernel in front, [forward] returns; the
    result has the shape of the base result, and behind the leading axis it
    is, batch by batch, the scale of the batch times the base result. *)
Theorem forward_0_2_returns_on_matching_batches
    (x1 x2 : Tensor A) (diag : bool) (params : Params)
    (k : SK) (orig : CovarianceResult A) (b' : K) (R : Tensor A)
    (lead : list nat) (n : nat) (rest : list nat) :
  ScaleKernel.valid k ->
  shape x1 = lead ++ [n] ->
  kernel_forward x1 x2 (Some (0%Z, 2%Z)) diag params (ScaleKernel.base_kernel k)
  = (Ok orig, b') ->
  delazify orig = Ok R ->
  well_shaped R ->
  shape R = n :: ScaleKernel.batch_shape k ++ rest ->
  exists res T,
    ScaleKernel.forward x1 x2 (Some (0%Z, 2%Z)) diag params k
    = (Ok res, ScaleKernel.with_base_kernel k b') /\
    delazify res = Ok T /\
    shape T = shape R /\
    is_lazy res = negb diag && is_lazy orig /\
    batchwise_product_0_2 n (ScaleKernel.batch_shape k) R (constrained k) T.
Proof.
  intros [Hw Hs] Hx Hb Hd HR Hshape.
  pose proof (transform_well_shaped (ScaleKernel.raw_outputscale_constraint k) _ Hw) as Hws.
  rewrite forward_run_0_2 by exact Hw. rewrite (size_at_shape x1 lead n Hx).
  destruct (scale_base_output_on_prefix (with_leading_axis n (constrained k))
              _ _ _ _ _ _ _ _ _ rest
              (with_leading_axis_well_shaped _ n Hws) HR Hb Hd)
    as (res & T & Hres & HdT & Hm & _ & HsT & Hl).
  { simpl. now rewrite Hs. }
  exists res, T. repeat split; try assumption.
  apply tensor_mul_batchwise_0_2; auto.
Qed.

(** X7. When the base result has no more axes than the scale in use, no
    trailing axis is appended (the count is not positive): the product is
    taken with the scale as it is, and the result has as many axes as the
    scale. *)
Theorem forward_on_a_result_of_lower_rank
    (x1 x2 : Tensor A) (batch_dims : option (Z * Z)) (diag : bool) (params : Params)
    (k k' : SK) (S : Tensor A) (orig res : CovarianceResult A) (b' : K) (R : Tensor A) :
  well_shaped (ScaleKernel.raw_outputscale k) ->
  scale_in_use batch_dims x1 (constrained k) S ->
  kernel_forward x1 x2 batch_dims diag params (ScaleKernel.base_kernel k) = (Ok orig, b') ->
  delazify orig = Ok R ->
  dim R <= dim S ->
  ScaleKernel.forward x1 x2 batch_dims diag params k = (Ok res, k') ->
  exists T,
    delazify res = Ok T /\
    tensor_mul R S = Ok T /\
    dim T = dim S.
Proof.
  intros Hw Hin Hb Hd Hrank Hf.
  rewrite (forward_with_scale _ _ _ _ _ _ S Hw Hin) in Hf.
  apply scale_base_output_ok in Hf
    as (orig' & b'' & R' & T & Hb' & _ & Hd' & HdT & Hm & _).
  rewrite Hb in Hb'. injection Hb' as <- _.
  rewrite Hd in Hd'. injection Hd' as <-.
  assert (HS : with_trailing_axes S (dim R) = S).
  { unfold with_trailing_axes. replace (dim R - dim S) with 0 by lia.
    simpl. rewrite app_nil_r. now destruct S. }
  rewrite HS in Hm. exists T. repeat split; try assumption.
  apply tensor_mul_shape, broadcast_shapes_expandable in Hm as [Hl _].
  unfold dim in *. lia.
Qed.

(** Lines 86 to 91 return the same on two objects with the same base
    kernel. *)
Lemma scale_base_output_depends_on_base (S x1 x2 : Tensor A) (batch_dims : option (Z * Z))
    (diag : bool) (params : Params) (k1 k2 : SK) :
  ScaleKernel.base_kernel k1 = ScaleKernel.base_kernel k2 ->
  fst (ScaleKernel.scale_base_output S x1 x2 batch_dims diag params k1)
  = fst (ScaleKernel.scale_base_output S x1 x2 batch_dims diag params k2) /\
  ScaleKernel.base_kernel (snd (ScaleKernel.scale_base_output S x1 x2 batch_dims diag params k1))
  = ScaleKernel.base_kernel
      (snd (ScaleKernel.scale_base_output S x1 x2 batch_dims diag params k2)).
Proof.
  intros Hbase.
  destruct (kernel_forward x1 x2 batch_dims diag params (ScaleKernel.base_kernel k1))
    as [[orig|e] b'] eqn:Hb1.
  - pose proof Hb1 as Hb2. rewrite Hbase in Hb2.
    rewrite (scale_base_output_run S _ _ _ _ _ _ _ _ Hb1).
    rewrite (scale_base_output_run S _ _ _ _ _ _ _ _ Hb2). auto.
  - pose proof Hb1 as Hb2. rewrite Hbase in Hb2.
    rewrite (scale_base_output_raise S _ _ _ _ _ _ _ _ Hb1).
    rewrite (scale_base_output_raise S _ _ _ _ _ _ _ _ Hb2). auto.
Qed.

(** X8. [forward] depends on the parameter and the constraint only through
    the constrained outputscale: two kernels over the same base kernel
    whose getters return the same tensor return the same from [forward],
    and leave the base kernel in the same state. *)
Theorem forward_depends_on_the_constrained_scale_only
    (x1 x2 : Tensor A) (batch_dims : option (Z * Z)) (diag : bool) (params : Params)
    (k1 k2 : SK) :
  ScaleKernel.base_kernel k1 = ScaleKernel.base_kernel k2 ->
  fst (ScaleKernel.outputscale k1) = fst (ScaleKernel.outputscale k2) ->
  fst (ScaleKernel.forward x1 x2 batch_dims diag params k1)
  = fst (ScaleKernel.forward x1 x2 batch_dims diag params k2) /\
  ScaleKernel.base_kernel (snd (ScaleKernel.forward x1 x2 batch_dims diag params k1))
  = ScaleKernel.base_kernel (snd (ScaleKernel.forward x1 x2 batch_dims diag params k2)).
Proof.
  intros Hbase Hscale. rewrite !outputscale_run in Hscale.
  apply (f_equal (fun r => match r with Ok t => t | Raise _ => constrained k1 end)) in Hscale.
  cbv beta iota delta [fst] in Hscale.
  unfold ScaleKernel.forward, bind. rewrite !outputscale_run, Hscale.
  destruct (ScaleKernel.is_0_2 batch_dims).
  - unfold lift. destruct (size_at x1 (-1)) as [n|e]; [|auto].
    destruct (repeat_ _ _) as [S|e]; [|auto].
    now apply scale_base_output_depends_on_base.
  - unfold ret. now apply scale_base_output_depends_on_base.
Qed.

(** X9. Right after construction the outputscale has the shape
    [batch_shape] and every entry of it is the transform of 0, the same
    for all batches; and the object satisfies the invariant of the
    parameter. *)
Theorem outputscale_after_init (Positive : Constraint A) (base_kernel : K)
    (outputscale_prior : option Prior) (outputscale_constraint : option (Constraint A))
    (batch_shape : list nat) :
  let k := ScaleKernel.__init__ Positive base_kernel outputscale_prior
             outputscale_constraint batch_shape in
  let c := match outputscale_constraint with
           | None => Positive
           | Some c => c
           end in
  ScaleKernel.outputscale k
  = (Ok (mkTensor batch_shape (repeat (transform_entry c szero) (numel_of batch_shape))), k)
  /\ ScaleKernel.valid k.
Proof.
  cbv zeta. split; [|apply init_valid].
  rewrite outputscale_run. f_equal. f_equal.
  unfold ScaleKernel.__init__, transform, tensor_map. simpl.
  destruct batch_shape as [|d s]; simpl.
  - reflexivity.
  - now rewrite map_repeat.
Qed.

End ForwardOutcomes.

(** ** A decorator around a decorator *)

Section NestedDecorators.
Context {A : Type} `{Scalar A} {Params Prior K : Type} `{Kernel A Params K}.

Abbreviation Inner := (ScaleKernel.t A Prior K).
Abbreviation Outer := (ScaleKernel.t A Prior (ScaleKernel.t A Prior K)).
Abbreviation constrained k :=
  (transform (ScaleKernel.raw_outputscale_constraint k) (ScaleKernel.raw_outputscale k)).


End NestedDecorators.

(** ** The further theorems on concrete kernels *)

Section MoreOnIntegers.
Import Examples MoreExamples.

Lemma forward_0_2_needs_an_axis_number :
  @ScaleKernel.forward Z _ unit unit unit (constant_kernel batch_result)
     (tensor 0%Z) inputs (Some (0%Z, 2%Z)) true tt batch_kernel
  = (Raise IndexError, batch_kernel).
Proof.
  exact (@forward_0_2_needs_an_axis Z _ unit unit unit (constant_kernel batch_result)
           (tensor 0%Z) inputs true tt batch_kernel eq_refl).
Defined.

Lemma forward_propagates_base_errors_seven :
  @ScaleKernel.forward Z _ unit unit unit (failing_kernel 7)
     inputs inputs (Some (0%Z, 2%Z)) false tt batch_kernel
  = (Raise (KernelError 7), batch_kernel).
Proof.
  exact (@forward_propagates_base_errors Z _ unit unit unit (failing_kernel 7)
           inputs inputs (Some (0%Z, 2%Z)) false tt batch_kernel (KernelError 7) tt
           eq_refl (fun _ => ex_intro _ [2] (ex_intro _ 4 eq_refl))).
Defined.



Lemma forward_0_2_returns_on_feature_batches :
  exists res T,
    @ScaleKernel.forward Z _ unit unit unit (constant_kernel feature_batch_result)
       inputs inputs (Some (0%Z, 2%Z)) true tt batch_kernel
    = (Ok res, batch_kernel) /\
    delazify res = Ok T /\
    shape T = [4; 3] /\
    is_lazy res = false /\
    batchwise_product_0_2 4 [3]
      (mkTensor [4; 3] [1; 1; 1; 2; 2; 2; 3; 3; 3; 4; 4; 4]%Z) batch_scales T.
Proof.
  exact (@forward_0_2_returns_on_matching_batches Z _ unit unit unit
           (constant_kernel feature_batch_result) inputs inputs true tt batch_kernel
           feature_batch_result tt
           (mkTensor [4; 3] [1; 1; 1; 2; 2; 2; 3; 3; 3; 4; 4; 4]%Z) [2] 4 []
           (conj eq_refl eq_refl) eq_refl eq_refl eq_refl eq_refl eq_refl).
Defined.

Lemma forward_on_a_number :
  exists T,
    delazify (DenseResult (mkTensor [3] [7; 14; 21]%Z)) = Ok T /\
    tensor_mul (tensor 7%Z) batch_scales = Ok T /\
    dim T = 1.
Proof.
  assert (Hin : scale_in_use None inputs
                  (transform (ScaleKernel.raw_outputscale_constraint batch_kernel)
                             (ScaleKernel.raw_outputscale batch_kernel)) batch_scales).
  { right. split; [discriminate|reflexivity]. }
  assert (Hrank : dim (tensor 7%Z) <= dim batch_scales) by (unfold dim; simpl; lia).
  exact (@forward_on_a_result_of_lower_rank Z _ unit unit unit
           (constant_kernel number_result) inputs inputs None true tt batch_kernel
           batch_kernel batch_scales number_result
           (DenseResult (mkTensor [3] [7; 14; 21]%Z)) tt (tensor 7%Z)
           eq_refl Hin eq_refl eq_refl Hrank eq_refl).
Defined.

Lemma forward_of_the_reparameterized_kernel :
  fst (@ScaleKernel.forward Z _ unit unit unit (constant_kernel batch_result)
         inputs inputs None true tt batch_kernel)
  = fst (@ScaleKernel.forward Z _ unit unit unit (constant_kernel batch_result)
           inputs inputs None true tt reparameterized_batch_kernel) /\
  ScaleKernel.base_kernel
    (snd (@ScaleKernel.forward Z _ unit unit unit (constant_kernel batch_result)
            inputs inputs None true tt batch_kernel))
  = ScaleKernel.base_kernel
      (snd (@ScaleKernel.forward Z _ unit unit unit (constant_kernel batch_result)
              inputs inputs None true tt reparameterized_batch_kernel)).
Proof.
  exact (@forward_depends_on_the_constrained_scale_only Z _ unit unit unit
           (constant_kernel batch_result) inputs inputs None true tt
           batch_kernel reparameterized_batch_kernel eq_refl eq_refl).
Defined.


(** The nested kernel on values. *)
Lemma forward_of_the_nested_kernel_on_values :
  fst (@ScaleKernel.forward Z _ unit unit (ScaleKernel.t Z unit unit)
         (@ScaleKernel_Kernel Z _ unit unit unit (constant_kernel batch_result))
         inputs inputs None true tt nested_batch_kernel)
  = Ok (DenseResult twice_scaled_batch_result).
Proof. reflexivity. Qed.

End MoreOnIntegers.

(** ** Setting the scale and evaluating *)

Section SetThenEvaluate.
Context {A : Type} `{Scalar A} {Params Prior K : Type} `{Kernel A Params K}.

Abbreviation SK := (ScaleKernel.t A Prior K).




(** X11. The setter changes nothing but the values of the parameter: the
    base kernel, the batch shape, the constraint, the prior and the shape
    of the parameter are the same after the call, whatever it is called
    with; and it returns, or the whole object is as it was. *)
Theorem setter_changes_values_only (value : ScaleKernel.Value) (k : SK) :
  let k' := snd (ScaleKernel.outputscale_setter value k) in
  ScaleKernel.base_kernel k' = ScaleKernel.base_kernel k /\
  ScaleKernel.batch_shape k' = ScaleKernel.batch_shape k /\
  ScaleKernel.raw_outputscale_constraint k' = ScaleKernel.raw_outputscale_constraint k /\
  ScaleKernel.outputscale_prior k' = ScaleKernel.outputscale_prior k /\
  shape (ScaleKernel.raw_outputscale k') = shape (ScaleKernel.raw_outputscale k) /\
  (fst (ScaleKernel.outputscale_setter value k) = Ok tt \/ k' = k).
Proof.
  cbv zeta.
  unfold ScaleKernel.outputscale_setter, ScaleKernel._set_outputscale, bind, gets, lift,
    ScaleKernel.initialize_raw_outputscale.
  destruct (inverse_transform _ _) as [w|e]; [|simpl; auto 10].
  destruct (expand w _) as [w'|e] eqn:He; [|simpl; auto 10].
  simpl. repeat split; auto.
  now apply expand_shape in He.
Qed.

End SetThenEvaluate.

Section SetThenEvaluateOnReals.
Import RealScalars.
Local Open Scope R_scope.


End SetThenEvaluateOnReals.
